(** * A retrieval-augmented answering pipeline, embedded from its Python source

    The development follows the source files:
    - [doc_processing.py] and [document_utils.py]: the classes [DocProcessor]
      and [DocumentProcessor], which wrap a text splitter and turn its chunks
      into document dictionaries;
    - [rag_app.py]: the class [SimpleRAG], which embeds documents, hands them
      to a persistent collection, searches it and asks a chat model;
    - [core_rag.py]: the class [CoreRAG], the same pipeline over a
      [VectorStore] and an [LLMClient].

    Python dictionaries with a fixed set of keys are records, with an [option]
    for a key that may be absent; metadata dictionaries are finite maps;
    exceptions are an explicit result type; calls to collaborators and to the
    logger are recorded in a trace carried by the state. *)

From Stdlib Require Import ZArith Sorted Permutation Ascii.
From stdpp Require Import gmap strings list pretty sorting.

Open Scope string_scope.
Open Scope list_scope.

(** ** Python values *)

(** Metadata values are scalars: strings and integers. *)
Inductive scalar :=
| SStr (s : string)
| SInt (z : Z).

(** [str(v)], as an f-string renders a value. *)
Definition str_scalar (v : scalar) : string :=
  match v with
  | SStr s => s
  | SInt z => pretty z
  end.

(** The line feed of the source's string literals. *)
Definition nl : string := String (Ascii.ascii_of_nat 10) "".

(** ** Exceptions *)

Inductive exn :=
| KeyError (key : string)
| IndexError
| TypeError (msg : string)
| CollaboratorError (msg : string).

(** [str(e)], as the log messages render an exception. *)
Definition str_exn (e : exn) : string :=
  match e with
  | KeyError key => "'" +:+ key +:+ "'"
  | IndexError => "list index out of range"
  | TypeError msg => msg
  | CollaboratorError msg => msg
  end.

Inductive result (A : Type) :=
| Ok (a : A)
| Raise (e : exn).
Arguments Ok {A} a.
Arguments Raise {A} e.

(** ** Documents *)

(** A document dictionary has the keys ['text'], ['metadata'] and ['id'];
    a field is [None] when the dictionary lacks the key. *)
Record document := {
  doc_text : option string;
  doc_metadata : option (gmap string scalar);
  doc_id : option string
}.

(** [doc.get('metadata') ['chunk_id']] *)
Definition chunk_id (d : document) : option scalar :=
  doc_metadata d ≫= (λ m : gmap string scalar, m !! "chunk_id").

(** [doc.get('metadata') ['chunk_count']] *)
Definition chunk_count (d : document) : option scalar :=
  doc_metadata d ≫= (λ m : gmap string scalar, m !! "chunk_count").

(** ** The document processors *)

(** The body of the [for i, chunk in enumerate(chunks)] loop of [chunk_text]:
    the dictionary built for chunk [i] out of [n]. *)
Definition chunk_document (metadata : gmap string scalar) (n i : nat)
    (chunk : string) : document :=
  {| doc_text := Some chunk;
     doc_metadata :=
       Some (<["chunk_count" := SInt (Z.of_nat n)]>
               (<["chunk_id" := SInt (Z.of_nat i)]> metadata));
     doc_id :=
       Some (str_scalar (default (SStr "doc") (metadata !! "source"))
               +:+ "_" +:+ pretty i) |}.

Module DocProcessor.
Section with_splitter.
(** [RecursiveCharacterTextSplitter] comes from the package
    [langchain_text_splitters]: its constructor, which may raise, and its
    method [split_text] are taken as given. *)
Variable splitter : Type.
Variable RecursiveCharacterTextSplitter : Z → Z → result splitter.
Variable split_text : splitter → string → list string.

Record t := { text_splitter : splitter }.

(** [DocProcessor.__init__(chunk_size, chunk_overlap)] *)
Definition init (chunk_size chunk_overlap : Z) : result t :=
  match RecursiveCharacterTextSplitter chunk_size chunk_overlap with
  | Ok s => Ok {| text_splitter := s |}
  | Raise e => Raise e
  end.

(** [DocProcessor.chunk_text(text, metadata=None)] *)
Definition chunk_text (self : t) (text : string)
    (metadata : option (gmap string scalar)) : list document :=
  let metadata := default ∅ metadata in
  let chunks := split_text (text_splitter self) text in
  imap (chunk_document metadata (length chunks)) chunks.

(** [DocProcessor.process_text(text, source_name)] *)
Definition process_text (self : t) (text source_name : string)
    : list document :=
  chunk_text self text
    (Some (<["type" := SStr "text"]> {["source" := SStr source_name]})).
End with_splitter.
Arguments text_splitter {splitter} _.
Arguments Build_t {splitter} _.
End DocProcessor.

Module DocumentProcessor.
Section with_splitter.
Variable splitter : Type.
Variable RecursiveCharacterTextSplitter : Z → Z → result splitter.
Variable split_text : splitter → string → list string.

Record t := { text_splitter : splitter }.

(** [DocumentProcessor.__init__(chunk_size, chunk_overlap)] *)
Definition init (chunk_size chunk_overlap : Z) : result t :=
  match RecursiveCharacterTextSplitter chunk_size chunk_overlap with
  | Ok s => Ok {| text_splitter := s |}
  | Raise e => Raise e
  end.

(** [DocumentProcessor.chunk_text(text, metadata=None)]. The body is
    wrapped in [try: ... except Exception: log; raise]; nothing in it
    raises once [split_text] has returned, so the handler is never
    entered. *)
Definition chunk_text (self : t) (text : string)
    (metadata : option (gmap string scalar)) : list document :=
  let metadata := default ∅ metadata in
  let chunks := split_text (text_splitter self) text in
  imap (chunk_document metadata (length chunks)) chunks.

(** [DocumentProcessor.process_text(text, source_name)] *)
Definition process_text (self : t) (text source_name : string)
    : list document :=
  chunk_text self text
    (Some (<["type" := SStr "text"]> {["source" := SStr source_name]})).
End with_splitter.
Arguments text_splitter {splitter} _.
Arguments Build_t {splitter} _.
End DocumentProcessor.

(** ** The store, its search results and the answer record *)

(** What the collection keeps for a document. *)
Record entry (Emb : Type) := {
entry_id : string;
entry_text : string;
entry_metadata : gmap string scalar;
entry_embedding : Emb
}.
Arguments entry_id {Emb} _.
Arguments entry_text {Emb} _.
Arguments entry_metadata {Emb} _.
Arguments entry_embedding {Emb} _.
Arguments Build_entry {Emb} _ _ _ _.

(** The dictionary [search_documents] builds for a hit. *)
Record search_result (D : Type) := {
sr_text : string;
sr_metadata : gmap string scalar;
sr_distance : D;
sr_id : string
}.
Arguments sr_text {D} _.
Arguments sr_metadata {D} _.
Arguments sr_distance {D} _.
Arguments sr_id {D} _.
Arguments Build_search_result {D} _ _ _ _.

(** The dictionary [query] returns. *)
Record query_result (D : Type) := {
qr_question : string;
qr_answer : string;
qr_sources : list (search_result D)
}.
Arguments qr_question {D} _.
Arguments qr_answer {D} _.
Arguments qr_sources {D} _.
Arguments Build_query_result {D} _ _ _.

(** The dictionary the collection's [query] returns: for each of the keys
  ['documents'], ['metadatas'], ['distances'] and ['ids'] one list per query
  embedding. *)
Record query_response (D : Type) := {
r_documents : list (list string);
r_metadatas : list (list (gmap string scalar));
r_distances : list (list D);
r_ids : list (list string)
}.
Arguments r_documents {D} _.
Arguments r_metadatas {D} _.
Arguments r_distances {D} _.
Arguments r_ids {D} _.
Arguments Build_query_response {D} _ _ _ _.

Module Collection.
Section backend.
Variables Emb D : Type.
(** The fixed distance metric of the index and the order on distances. *)
Variable dist : Emb → Emb → D.
Variable dleb : D → D → bool.

(** Modelled from the spec: the persistent collection backend of the
    specification (the collection of [rag_app.py] is chromadb's, which is
    not under src/). An entry whose id is already present is overwritten in
    place, a new one is appended ("collection size increases by
    len(documents) minus any ids overwritten in place"). *)
Fixpoint upsert (e : entry Emb) (es : list (entry Emb)) : list (entry Emb) :=
  match es with
  | [] => [e]
  | x :: rest =>
      if decide (entry_id x = entry_id e) then e :: rest
      else x :: upsert e rest
  end.

(** Modelled from the spec: the entries of one add-with-embedding call of
    the collection backend, read off its four parallel lists. *)
Fixpoint entries_of (documents : list string) (embeddings : list Emb)
    (metadatas : list (gmap string scalar)) (ids : list string)
    : list (entry Emb) :=
  match documents, embeddings, metadatas, ids with
  | t :: ts, v :: vs, m :: ms, i :: is_ =>
      Build_entry i t m v :: entries_of ts vs ms is_
  | _, _, _, _ => []
  end.

(** Modelled from the spec: add-with-embedding of the collection backend,
    which persists [{id, text, metadata, embedding}] for each document in
    input order. *)
Definition add (es : list (entry Emb)) (documents : list string)
    (embeddings : list Emb) (metadatas : list (gmap string scalar))
    (ids : list string) : list (entry Emb) :=
  fold_left (λ acc e, upsert e acc)
    (entries_of documents embeddings metadatas ids) es.

(** Modelled from the spec: add-with-embedding of the collection backend as
    a call, which returns for every batch and leaves the entries of [add]. *)
Definition add_call (es : list (entry Emb)) (documents : list string)
    (embeddings : list Emb) (metadatas : list (gmap string scalar))
    (ids : list string) : result unit * list (entry Emb) :=
  (Ok tt, add es documents embeddings metadatas ids).

(** Modelled from the spec: [count()] of the collection backend, the
    number of ids persisted. *)
Definition count (es : list (entry Emb)) : nat := length es.

(** Modelled from the spec: the ordering step of the nearest-neighbour
    lookup of the collection backend, "ordered by ascending distance ...;
    ties broken by insertion order": an entry is put in front of the later
    entries that are not nearer than it. *)
Fixpoint insert_by (x : entry Emb * D) (l : list (entry Emb * D))
    : list (entry Emb * D) :=
  match l with
  | [] => [x]
  | y :: rest =>
      if dleb (snd x) (snd y) then x :: y :: rest
      else y :: insert_by x rest
  end.

(** Modelled from the spec: the ordering of all persisted entries by
    ascending distance, in the nearest-neighbour lookup of the collection
    backend. *)
Fixpoint sort_by (l : list (entry Emb * D)) : list (entry Emb * D) :=
  match l with
  | [] => []
  | x :: rest => insert_by x (sort_by rest)
  end.

(** Modelled from the spec: the nearest-neighbour lookup of the collection
    backend, "against all persisted embeddings using a fixed distance
    metric, returns up to k results ordered ascending by distance"; ties
    are broken by insertion order. *)
Definition nearest (es : list (entry Emb)) (n_results : Z) (q : Emb)
    : list (entry Emb * D) :=
  take (Z.to_nat n_results)
    (sort_by ((λ e, (e, dist (entry_embedding e) q)) <$> es)).

(** Modelled from the spec: the [query] call of the collection backend (not
    under src/), returning the nearest entries of each query embedding in
    the shape [search_documents] reads. *)
Definition query (es : list (entry Emb)) (query_embeddings : list Emb)
    (n_results : Z) : query_response D :=
  let hits := nearest es n_results <$> query_embeddings in
  {| r_documents := fmap (λ h, entry_text (fst h)) <$> hits;
     r_metadatas := fmap (λ h, entry_metadata (fst h)) <$> hits;
     r_distances := fmap snd <$> hits;
     r_ids := fmap (λ h, entry_id (fst h)) <$> hits |}.
End backend.
Arguments upsert {Emb} _ _.
Arguments entries_of {Emb} _ _ _ _.
Arguments add {Emb} _ _ _ _ _.
Arguments add_call {Emb} _ _ _ _ _.
Arguments count {Emb} _.
Arguments insert_by {Emb D} _ _ _.
Arguments sort_by {Emb D} _ _.
Arguments nearest {Emb D} _ _ _ _ _.
Arguments query {Emb D} _ _ _ _ _.
End Collection.

(** ** Effects: the collection, and the trace of outside calls *)

Inductive event (Emb : Type) :=
| EmbeddingsCreate (model input : string)
| ChatCompletionsCreate (model : string) (messages : list (string * string))
| CollectionAdd (documents : list string) (embeddings : list Emb)
    (metadatas : list (gmap string scalar)) (ids : list string)
| CollectionQuery (query_embeddings : list Emb) (n_results : Z)
| LogInfo (msg : string)
| LogError (msg : string).
Arguments EmbeddingsCreate {Emb} _ _.
Arguments ChatCompletionsCreate {Emb} _ _.
Arguments CollectionAdd {Emb} _ _ _ _.
Arguments CollectionQuery {Emb} _ _.
Arguments LogInfo {Emb} _.
Arguments LogError {Emb} _.

Record world (Emb : Type) := {
  collection : list (entry Emb);
  trace : list (event Emb)
}.
Arguments collection {Emb} _.
Arguments trace {Emb} _.
Arguments Build_world {Emb} _ _.

(** A computation reads and updates the world and returns or raises. *)
Definition M (Emb A : Type) : Type := world Emb → result A * world Emb.

Definition ret {Emb A} (a : A) : M Emb A := λ w, (Ok a, w).

Definition bind {Emb A B} (c : M Emb A) (k : A → M Emb B) : M Emb B :=
  λ w, match c w with
       | (Ok a, w') => k a w'
       | (Raise e, w') => (Raise e, w')
       end.

Definition raise {Emb A} (e : exn) : M Emb A := λ w, (Raise e, w).

(** The outcome of a call to a collaborator. *)
Definition lift {Emb A} (r : result A) : M Emb A := λ w, (r, w).

Definition emit {Emb} (ev : event Emb) : M Emb unit :=
  λ w, (Ok tt, {| collection := collection w; trace := trace w ++ [ev] |}).

Declare Scope py_scope.
Delimit Scope py_scope with py.
Notation "'do' x <- c ; k" := (bind c (λ x, k))
  (at level 10, x name, c at level 100, k at level 200) : py_scope.
Notation "'run' c ; k" := (bind c (λ _, k))
  (at level 10, c at level 100, k at level 200) : py_scope.
Open Scope py_scope.

(** [try: body except Exception as e: logger.error(f"{prefix}{e}"); raise] *)
Definition log_and_reraise {Emb A} (prefix : string) (body : M Emb A)
    : M Emb A :=
  λ w, match body w with
       | (Ok a, w') => (Ok a, w')
       | (Raise e, w') =>
           (run emit (LogError (prefix +:+ str_exn e)); raise e) w'
       end.

(** [l[i]] *)
Definition getitem {Emb A} (l : list A) (i : nat) : M Emb A :=
  match l !! i with
  | Some x => ret x
  | None => raise IndexError
  end.

(** The context and the prompt of [generate_response], the same text in
    [rag_app.py] and [core_rag.py]. *)
Definition context_of {D} (context_docs : list (search_result D)) : string :=
  String.concat (nl +:+ nl) (sr_text <$> context_docs).

Definition prompt_of (query context : string) : string :=
  "Based on the following context, please answer the question."
    +:+ nl +:+ nl +:+ "Context:" +:+ nl +:+ context
    +:+ nl +:+ nl +:+ "Question: " +:+ query
    +:+ nl +:+ nl +:+ "Answer:".

(** ** [rag_app.py]: the class [SimpleRAG] *)

(** The identifier [add_documents] gives the document at index [i]:
    [doc.get('id', f"doc_{i}")]. *)
Definition assigned_id (i : nat) (doc : document) : string :=
  default ("doc_" +:+ pretty i) (doc_id doc).

Module SimpleRAG.

(** The four lists [add_documents] fills before it calls the collection. *)
Record batch (Emb : Type) := {
  texts : list string;
  embeddings : list Emb;
  metadatas : list (gmap string scalar);
  ids : list string
}.
Arguments texts {Emb} _.
Arguments embeddings {Emb} _.
Arguments metadatas {Emb} _.
Arguments ids {Emb} _.
Arguments Build_batch {Emb} _ _ _ _.

(** The system message of [generate_response]. *)
Definition system_message : string :=
  "You are a helpful assistant. Answer questions based on the provided context. If the context doesn't contain relevant information, say so clearly.".

(** The [messages] argument of the chat call: role and content. *)
Definition messages_of (prompt : string) : list (string * string) :=
  [("system", system_message); ("user", prompt)].

(** The default of the parameter [n_results]. *)
Definition default_n_results : Z := 3.

Section with_collaborators.
Variables Emb D : Type.
(** The metric and the order of the collection backend. *)
Variable dist : Emb → Emb → D.
Variable dleb : D → D → bool.
(** [self.embedding_model] and [self.chat_model], read from the
    environment. *)
Variables embedding_model chat_model : string.
(** The OpenAI client: [embeddings.create(model, input).data[0].embedding]
    and [chat.completions.create(model, messages, ...)
    .choices[0].message.content]. Either call may raise. *)
Variable embeddings_create : string → string → result Emb.
Variable chat_completions_create :
  string → list (string * string) → result string.
(** The chromadb collection behind [self.collection] is not under src/. Its
    [add(documents=, embeddings=, metadatas=, ids=)] is taken as given: on
    the entries persisted so far and the four lists it returns or raises, and
    it leaves the entries persisted afterwards. Which batches it refuses, and
    what it does with an id that is already persisted, is the collection's
    business. *)
Variable chroma_add :
  list (entry Emb) → list string → list Emb → list (gmap string scalar) →
  list string → result unit * list (entry Emb).

(** [SimpleRAG.create_embedding(text)] *)
Definition create_embedding (text : string) : M Emb Emb :=
  log_and_reraise "Error creating embedding: "
    (run emit (EmbeddingsCreate embedding_model text);
     lift (embeddings_create embedding_model text)).

(** [doc['text']] *)
Definition getitem_text (doc : document) : M Emb string :=
  match doc_text doc with
  | Some text => ret text
  | None => raise (KeyError "text")
  end.

(** The loop [for i, doc in enumerate(documents)] of [add_documents], from
    index [i] on, appending to the four lists. *)
Fixpoint add_documents_loop (i : nat) (documents : list document)
    (b : batch Emb) : M Emb (batch Emb) :=
  match documents with
  | [] => ret b
  | doc :: rest =>
      do text <- getitem_text doc;
      let metadata := default ∅ (doc_metadata doc) in
      let doc_id := assigned_id i doc in
      do embedding <- create_embedding text;
      add_documents_loop (S i) rest
        {| texts := texts b ++ [text];
           embeddings := embeddings b ++ [embedding];
           metadatas := metadatas b ++ [metadata];
           ids := ids b ++ [doc_id] |}
  end.

(** [self.collection.add(documents=, embeddings=, metadatas=, ids=)]: the
    call is recorded, and its outcome, return or exception, is the
    collection's. *)
Definition collection_add (b : batch Emb) : M Emb unit :=
  λ w, let outcome :=
         chroma_add (collection w) (texts b) (embeddings b) (metadatas b)
           (ids b) in
       (fst outcome,
        {| collection := snd outcome;
           trace :=
             trace w ++ [CollectionAdd (texts b) (embeddings b)
                           (metadatas b) (ids b)] |}).

(** [SimpleRAG.add_documents(documents)] *)
Definition add_documents (documents : list document) : M Emb unit :=
  log_and_reraise "Error adding documents: "
    (do b <- add_documents_loop 0 documents
               {| texts := []; embeddings := []; metadatas := []; ids := [] |};
     run collection_add b;
     emit (LogInfo ("Added " +:+ pretty (length documents)
                      +:+ " documents to the collection"))).

(** The message of the [TypeError] with which the chromadb collection
    refuses a number of results that is not positive. *)
Definition n_results_message (n_results : Z) : string :=
  "Number of requested results " +:+ pretty n_results
    +:+ ", cannot be negative, or zero.".

(** [self.collection.query(query_embeddings=, n_results=)]: the call is
    recorded; the collection checks [n_results] ahead of the lookup and
    raises [TypeError] unless it is positive, and answers with the nearest
    entries otherwise. *)
Definition collection_query (query_embeddings : list Emb) (n_results : Z)
    : M Emb (query_response D) :=
  run emit (CollectionQuery query_embeddings n_results);
  if decide (0 < n_results)%Z
  then λ w, (Ok (Collection.query dist dleb (collection w) query_embeddings
                   n_results), w)
  else raise (TypeError (n_results_message n_results)).

(** [results[key][0][i]] for one of the four keys. *)
Definition getitem2 {A} (l : list (list A)) (i : nat) : M Emb A :=
  do row <- getitem l 0;
  getitem row i.

(** The loop [for i in range(len(results['documents'][0]))] of
    [search_documents] over the remaining indices, appending to
    [search_results]. *)
Fixpoint format_loop (results : query_response D) (indices : list nat)
    (search_results : list (search_result D))
    : M Emb (list (search_result D)) :=
  match indices with
  | [] => ret search_results
  | i :: rest =>
      do text <- getitem2 (r_documents results) i;
      do metadata <- getitem2 (r_metadatas results) i;
      do distance <- getitem2 (r_distances results) i;
      do id_ <- getitem2 (r_ids results) i;
      format_loop results rest
        (search_results ++
           [{| sr_text := text; sr_metadata := metadata;
               sr_distance := distance; sr_id := id_ |}])
  end.

(** [SimpleRAG.search_documents(query, n_results)] *)
Definition search_documents (query : string) (n_results : Z)
    : M Emb (list (search_result D)) :=
  log_and_reraise "Error searching documents: "
    (do query_embedding <- create_embedding query;
     do results <- collection_query [query_embedding] n_results;
     do row <- getitem (r_documents results) 0;
     format_loop results (seq 0 (length row)) []).

(** [SimpleRAG.generate_response(query, context_docs)] *)
Definition generate_response (query : string)
    (context_docs : list (search_result D)) : M Emb string :=
  log_and_reraise "Error generating response: "
    (let context := context_of context_docs in
     let prompt := prompt_of query context in
     run emit (ChatCompletionsCreate chat_model (messages_of prompt));
     lift (chat_completions_create chat_model (messages_of prompt))).

(** [SimpleRAG.query(question, n_results)] *)
Definition query (question : string) (n_results : Z)
    : M Emb (query_result D) :=
  log_and_reraise "Error in RAG query: "
    (do relevant_docs <- search_documents question n_results;
     do response <- generate_response question relevant_docs;
     ret {| qr_question := question;
            qr_answer := response;
            qr_sources := relevant_docs |}).
End with_collaborators.
Arguments create_embedding {Emb} _ _ _.
Arguments getitem_text {Emb} _.
Arguments add_documents_loop {Emb} _ _ _ _ _.
Arguments collection_add {Emb} _ _.
Arguments add_documents {Emb} _ _ _ _.
Arguments collection_query {Emb D} _ _ _ _.
Arguments getitem2 {Emb A} _ _.
Arguments format_loop {Emb D} _ _ _.
Arguments search_documents {Emb D} _ _ _ _ _ _.
Arguments generate_response {Emb D} _ _ _ _.
Arguments query {Emb D} _ _ _ _ _ _ _ _.
End SimpleRAG.

(** ** [core_rag.py]: the class [CoreRAG] *)

Module CoreRAG.
Section with_collaborators.
Variables Emb D : Type.
(** [self.embedding_model] and [self.chat_model], read from the
    configuration. *)
Variables embedding_model chat_model : string.
(** The classes [VectorStore] and [LLMClient] of the modules [vector_store]
    and [llm_client] are not under src/: their methods are taken as given
    computations. *)
Variable VectorStore_add_documents : list document → string → M Emb unit.
Variable VectorStore_search :
  string → Z → string → M Emb (list (search_result D)).
Variable LLMClient_chat : string → string → M Emb string.

(** [CoreRAG.add_documents(documents)] *)
Definition add_documents (documents : list document) : M Emb unit :=
  VectorStore_add_documents documents embedding_model.

(** [CoreRAG.search_documents(query, n_results)] *)
Definition search_documents (query : string) (n_results : Z)
    : M Emb (list (search_result D)) :=
  VectorStore_search query n_results embedding_model.

(** [CoreRAG.generate_response(query, context_docs)] *)
Definition generate_response (query : string)
    (context_docs : list (search_result D)) : M Emb string :=
  let context := context_of context_docs in
  let prompt := prompt_of query context in
  LLMClient_chat prompt chat_model.

(** [CoreRAG.query(question, n_results)] *)
Definition query (question : string) (n_results : Z)
    : M Emb (query_result D) :=
  do relevant_docs <- search_documents question n_results;
  do response <- generate_response question relevant_docs;
  ret {| qr_question := question;
         qr_answer := response;
         qr_sources := relevant_docs |}.
End with_collaborators.
Arguments add_documents {Emb} _ _ _.
Arguments search_documents {Emb D} _ _ _ _.
Arguments generate_response {Emb D} _ _ _ _.
Arguments query {Emb D} _ _ _ _ _ _.
End CoreRAG.

(** The dictionary [search_documents] builds at an index where the
    collection's answer holds the entry [fst h] at distance [snd h]. *)
Definition result_of_hit {Emb D} (h : entry Emb * D) : search_result D :=
  {| sr_text := entry_text (fst h);
     sr_metadata := entry_metadata (fst h);
     sr_distance := snd h;
     sr_id := entry_id (fst h) |}.

(** Two search results in non-decreasing order of distance. *)
Definition distance_le {D} (dleb : D → D → bool) (a b : search_result D)
    : Prop :=
  dleb (sr_distance a) (sr_distance b) = true.

(** ** What the collection owes [add_documents] *)

(** Modelled from the spec: what add-with-embedding of the collection
    backend (chromadb, not under src/) owes its caller, "persist
    [{id, text, metadata, embedding}]": when the call returns on a batch whose
    ids are pairwise distinct, a row whose id is not persisted yet is an entry
    of the collection afterwards. What happens to an id that is already
    persisted, overwritten or kept, is left open. *)
Definition persists_new_rows {Emb}
    (add_call : list (entry Emb) → list string → list Emb →
                list (gmap string scalar) → list string →
                result unit * list (entry Emb)) : Prop :=
  ∀ es documents embeddings metadatas ids es' i id_ t m v,
    add_call es documents embeddings metadatas ids = (Ok tt, es') →
    NoDup ids →
    ids !! i = Some id_ → documents !! i = Some t →
    metadatas !! i = Some m → embeddings !! i = Some v →
    id_ ∉ entry_id <$> es →
    Build_entry id_ t m v ∈ es'.

(** A document is persisted under an id: the collection holds an entry with
    that id and the document's text. *)
Definition persisted_under {Emb} (es : list (entry Emb)) (id_ text : string)
    : Prop :=
  ∃ e, e ∈ es ∧ entry_id e = id_ ∧ entry_text e = text.

(** ** Counting the calls in a trace *)

Definition is_chat_call {Emb} (ev : event Emb) : bool :=
  match ev with ChatCompletionsCreate _ _ => true | _ => false end.

Definition is_collection_add {Emb} (ev : event Emb) : bool :=
  match ev with CollectionAdd _ _ _ _ => true | _ => false end.

Fixpoint count_events {Emb} (p : event Emb → bool) (evs : list (event Emb))
    : nat :=
  match evs with
  | [] => 0
  | ev :: rest => (if p ev then 1 else 0) + count_events p rest
  end.

(** ** Text search, for statements about where a text occurs in a prompt *)

(** [s[len(p):]] when [s.startswith(p)]. *)
Fixpoint strip_prefix (p s : string) : option string :=
  match p with
  | "" => Some s
  | String a p' =>
      match s with
      | "" => None
      | String b s' =>
          if decide (a = b) then strip_prefix p' s' else None
      end
  end.

(** What follows [q] in [s], for every occurrence of [q], from the left. *)
Fixpoint tails_after (q s : string) : list string :=
  match strip_prefix q s with Some r => [r] | None => [] end ++
  match s with
  | "" => []
  | String _ s' => tails_after q s'
  end.

(** [p in s] *)
Fixpoint is_substring (p s : string) : bool :=
  match strip_prefix p s with
  | Some _ => true
  | None =>
      match s with
      | "" => false
      | String _ s' => is_substring p s'
      end
  end.

(** Whatever its wording, an instruction to answer from the given context
    names the context. *)
Definition mentions_context (s : string) : bool :=
  is_substring "context" s || is_substring "Context" s.

(** The structure the specification gives for the prompt: the context block,
    then the literal question, then an instruction about answering from the
    context. *)
Definition spec_prompt_structure (prompt context question : string) : Prop :=
  ∃ pre mid instruction,
    prompt = pre +:+ context +:+ mid +:+ question +:+ instruction ∧
    mentions_context instruction = true.

(** ** A small instance, to run the definitions on *)

Module Sample.

(** Embeddings and distances are integers, the metric is the absolute
    difference. *)
Definition dist (a b : Z) : Z := Z.abs (a - b).

(** The embedding of a text is its length; the empty text is refused. *)
Definition embeddings_create (model input : string) : result Z :=
  if decide (input = "") then Raise (CollaboratorError "empty input")
  else Ok (Z.of_nat (String.length input)).

(** The chat model answers with the length of the user message; it is
    unreachable under the model name ["offline"]. *)
Definition chat_completions_create (model : string)
    (messages : list (string * string)) : result string :=
  if decide (model = "offline") then Raise (CollaboratorError "unreachable")
  else Ok (pretty (String.length (default "" (snd <$> last messages)))).

(** A collection that, as the chromadb collection does, refuses an empty
    batch, an empty metadata dictionary and an id that occurs twice in the
    batch; it keeps the entry of an id that is already persisted and appends
    the other rows. *)
Definition chroma_add (es : list (entry Z)) (documents : list string)
    (embeddings : list Z) (metadatas : list (gmap string scalar))
    (ids : list string) : result unit * list (entry Z) :=
  if decide (ids = []) then (Raise (CollaboratorError "empty batch"), es)
  else if existsb (λ m : gmap string scalar, bool_decide (size m = 0%nat))
            metadatas
  then (Raise (CollaboratorError "empty metadata"), es)
  else if decide (NoDup ids)
  then (Ok tt,
        es ++ filter (λ e, entry_id e ∉ entry_id <$> es)
                (Collection.entries_of documents embeddings metadatas ids))
  else (Raise (CollaboratorError "duplicate ids"), es).

(** The metadata of the sample documents. *)
Definition notes : gmap string scalar := {["source" := SStr "notes"]}.

(** The three documents of the end-to-end scenario. *)
Definition docs_abc : list document :=
  [ {| doc_text := Some "alpha"; doc_metadata := Some notes;
       doc_id := Some "a" |};
    {| doc_text := Some "be"; doc_metadata := Some notes;
       doc_id := Some "b" |};
    {| doc_text := Some "gamma ray"; doc_metadata := Some notes;
       doc_id := Some "c" |} ].

(** A batch whose second document has no ['id'] and whose third cannot be
    embedded. *)
Definition docs_failing : list document :=
  [ {| doc_text := Some "alpha"; doc_metadata := None; doc_id := Some "a" |};
    {| doc_text := Some "be"; doc_metadata := None; doc_id := None |};
    {| doc_text := Some ""; doc_metadata := None; doc_id := Some "c" |} ].

(** A batch in which only the first document carries an ['id']. *)
Definition docs_mixed : list document :=
  [ {| doc_text := Some "alpha"; doc_metadata := Some notes;
       doc_id := Some "a" |};
    {| doc_text := Some "be"; doc_metadata := Some notes; doc_id := None |};
    {| doc_text := Some "gamma ray"; doc_metadata := Some notes;
       doc_id := None |} ].

(** A batch whose first document carries as its ['id'] the positional
    identifier of the second, which has none. *)
Definition docs_clash : list document :=
  [ {| doc_text := Some "alpha"; doc_metadata := Some notes;
       doc_id := Some "doc_1" |};
    {| doc_text := Some "be"; doc_metadata := Some notes; doc_id := None |} ].

(** A batch whose documents have no ['metadata']. *)
Definition docs_bare : list document :=
  [ {| doc_text := Some "alpha"; doc_metadata := None; doc_id := Some "a" |};
    {| doc_text := Some "be"; doc_metadata := None; doc_id := None |} ].

(** A splitter that cuts a text into slices of [size] characters. *)
Fixpoint slices (fuel size : nat) (s : string) : list string :=
  match fuel with
  | 0 => []
  | S fuel' =>
      if decide (s = "") then []
      else String.substring 0 size s
             :: slices fuel' size
                  (String.substring size (String.length s - size) s)
  end.

Definition split_text (size : nat) (s : string) : list string :=
  slices (String.length s) size s.

Definition empty_world : world Z := {| collection := []; trace := [] |}.

(** The collection after the three documents were added. *)
Definition world_abc : world Z :=
  {| collection :=
       [ Build_entry "a" "alpha" notes 5%Z;
         Build_entry "b" "be" notes 2%Z;
         Build_entry "c" "gamma ray" notes 9%Z ];
     trace := [] |}.

Definition question : string := "What is RAG?".

(** The two entries nearest to the question in [world_abc]. *)
Definition hits : list (search_result Z) :=
  [ {| sr_text := "gamma ray"; sr_metadata := notes; sr_distance := 3%Z;
       sr_id := "c" |};
    {| sr_text := "alpha"; sr_metadata := notes; sr_distance := 7%Z;
       sr_id := "a" |} ].

(** Stand-ins for the [VectorStore] and the [LLMClient] of [CoreRAG]. *)
Definition VectorStore_search (query : string) (n_results : Z)
    (model : string) : M Z (list (search_result Z)) :=
  SimpleRAG.search_documents dist Z.leb model embeddings_create
    query n_results.

Definition LLMClient_chat (prompt model : string) : M Z string :=
  run emit (ChatCompletionsCreate model [("user", prompt)]);
  lift (chat_completions_create model [("user", prompt)]).

End Sample.

(** * The rest of the document processors and of [SimpleRAG] *)

(** ** Python's text methods *)

(** A Python [str] read as the list of its characters; a character is a
    code point below 256. *)
Definition chars (s : string) : list Ascii.ascii := String.list_ascii_of_string s.
Definition text_of (l : list Ascii.ascii) : string := String.string_of_list_ascii l.

(** The space of [' '.join] and of [line.split("  ")]. *)
Definition space : Ascii.ascii := Ascii.ascii_of_nat 32.
Definition CR : Ascii.ascii := Ascii.ascii_of_nat 13.
Definition LF : Ascii.ascii := Ascii.ascii_of_nat 10.

(** [c.isspace()]: tab to carriage return, the four separators, the
    space, next line and the no-break space. *)
Definition isspace (c : Ascii.ascii) : bool :=
  let n := Ascii.N_of_ascii c in
  ((9 <=? n) && (n <=? 13) || (28 <=? n) && (n <=? 32)
   || (n =? 133) || (n =? 160))%N.

(** The line boundaries of [splitlines]: line feed to carriage return, the
    file, group and record separators and next line. *)
Definition is_linebreak (c : Ascii.ascii) : bool :=
  let n := Ascii.N_of_ascii c in
  ((10 <=? n) && (n <=? 13) || (28 <=? n) && (n <=? 30) || (n =? 133))%N.

(** [s.lstrip()] *)
Fixpoint lstrip (s : list Ascii.ascii) : list Ascii.ascii :=
  match s with
  | [] => []
  | c :: rest => if isspace c then lstrip rest else s
  end.

(** [s.rstrip()] *)
Definition rstrip (s : list Ascii.ascii) : list Ascii.ascii :=
  reverse (lstrip (reverse s)).

(** [s.strip()] *)
Definition strip (s : list Ascii.ascii) : list Ascii.ascii :=
  rstrip (lstrip s).

(** [s.splitlines()], with the line read so far in [cur]: a carriage return
    followed by a line feed is one boundary, and no empty line is reported
    behind the last boundary. *)
Fixpoint splitlines_from (cur s : list Ascii.ascii)
    : list (list Ascii.ascii) :=
  match s with
  | [] => match cur with [] => [] | _ => [cur] end
  | c :: rest =>
      if is_linebreak c then
        cur :: match rest with
               | d :: rest' =>
                   if decide (c = CR ∧ d = LF) then splitlines_from [] rest'
                   else splitlines_from [] rest
               | [] => splitlines_from [] rest
               end
      else splitlines_from (cur ++ [c]) rest
  end.

Definition splitlines (s : list Ascii.ascii) : list (list Ascii.ascii) :=
  splitlines_from [] s.

(** [s.split("  ")], with the piece read so far in [cur]: cut at every pair
    of spaces, from the left. *)
Fixpoint split_double_space_from (cur s : list Ascii.ascii)
    : list (list Ascii.ascii) :=
  match s with
  | [] => [cur]
  | c :: rest =>
      match rest with
      | d :: rest' =>
          if decide (c = space ∧ d = space)
          then cur :: split_double_space_from [] rest'
          else split_double_space_from (cur ++ [c]) rest
      | [] => split_double_space_from (cur ++ [c]) rest
      end
  end.

Definition split_double_space (s : list Ascii.ascii)
    : list (list Ascii.ascii) :=
  split_double_space_from [] s.

(** [' '.join(pieces)] *)
Fixpoint join_space (pieces : list (list Ascii.ascii)) : list Ascii.ascii :=
  match pieces with
  | [] => []
  | [p] => p
  | p :: rest => p ++ space :: join_space rest
  end.

(** The whitespace clean-up at the end of [load_web_page]:
    [lines = (line.strip() for line in text.splitlines())],
    [chunks = (phrase.strip() for line in lines
               for phrase in line.split("  "))],
    [' '.join(chunk for chunk in chunks if chunk)]. *)
Definition clean_up_whitespace (text : list Ascii.ascii) : list Ascii.ascii :=
  let lines := strip <$> splitlines text in
  let chunks :=
    lines ≫= (λ line, strip <$> split_double_space line) in
  join_space (filter (λ chunk, chunk ≠ []) chunks).

(** Two neighbouring characters that are not both spaces. *)
Definition no_double_space (a b : Ascii.ascii) : Prop :=
  ¬ (a = space ∧ b = space).

(** The clean-up on a [str]. *)
Definition clean_up (text : string) : string :=
  text_of (clean_up_whitespace (chars text)).

(** ** [doc_processing.py]: loading and processing *)

Module DocProcessor_io.

(** The [User-Agent] header of [load_web_page]. *)
Definition user_agent : string := "Mozilla/5.0".

Section with_io.
Variable splitter : Type.
Variable RecursiveCharacterTextSplitter : Z → Z → result splitter.
Variable split_text : splitter → string → list string.
(** [open(file_path, 'r', encoding='utf-8')] and [file.read()]: the text of
    the file, or the exception of either call. *)
Variable open_read : string → result string.
(** [requests.get(url, headers={'User-Agent': agent})] and
    [response.raise_for_status()]: the response, or the exception of either
    call. *)
Variable response : Type.
Variable requests_get : string → string → result response.
(** [BeautifulSoup(response.content, 'html.parser')], the extraction of its
    [script] and [style] elements, and [soup.get_text()]. *)
Variable soup_get_text : response → result string.

(** [DocProcessor.load_text_file(file_path)] *)
Definition load_text_file (file_path : string) : result string :=
  open_read file_path.

(** [DocProcessor.load_web_page(url)] *)
Definition load_web_page (url : string) : result string :=
  match requests_get url user_agent with
  | Raise e => Raise e
  | Ok r =>
      match soup_get_text r with
      | Raise e => Raise e
      | Ok text => Ok (clean_up text)
      end
  end.

(** [DocProcessor.process_file(file_path, source_name=None)] *)
Definition process_file (self : DocProcessor.t splitter) (file_path : string)
    (source_name : option string) : result (list document) :=
  let source_name := default file_path source_name in
  match load_text_file file_path with
  | Raise e => Raise e
  | Ok text =>
      Ok (DocProcessor.chunk_text splitter split_text self text
            (Some (<["file_path" := SStr file_path]>
                     (<["type" := SStr "file"]>
                        {["source" := SStr source_name]}))))
  end.

(** [DocProcessor.process_url(url, source_name=None)] *)
Definition process_url (self : DocProcessor.t splitter) (url : string)
    (source_name : option string) : result (list document) :=
  let source_name := default url source_name in
  match load_web_page url with
  | Raise e => Raise e
  | Ok text =>
      Ok (DocProcessor.chunk_text splitter split_text self text
            (Some (<["url" := SStr url]>
                     (<["type" := SStr "web"]>
                        {["source" := SStr source_name]}))))
  end.
End with_io.
End DocProcessor_io.

(** ** [document_utils.py]: loading and processing, with the log *)

Module DocumentProcessor_io.

(** The [User-Agent] header of [load_web_page]. *)
Definition user_agent : string :=
  "Mozilla/5.0 (Windows NT 10.0; Win64; x64) AppleWebKit/537.36".

(** An outcome and the lines written by [logger.error]. *)
Definition logged (A : Type) : Type := result A * list string.

Section with_io.
Variable splitter : Type.
Variable RecursiveCharacterTextSplitter : Z → Z → result splitter.
Variable split_text : splitter → string → list string.
Variable open_read : string → result string.
Variable response : Type.
Variable requests_get : string → string → result response.
Variable soup_get_text : response → result string.

(** [DocumentProcessor.load_text_file(file_path)] *)
Definition load_text_file (file_path : string) : logged string :=
  match open_read file_path with
  | Ok text => (Ok text, [])
  | Raise e =>
      (Raise e,
       ["Error loading file " +:+ file_path +:+ ": " +:+ str_exn e])
  end.

(** [DocumentProcessor.load_web_page(url)] *)
Definition load_web_page (url : string) : logged string :=
  let body :=
    match requests_get url user_agent with
    | Raise e => Raise e
    | Ok r =>
        match soup_get_text r with
        | Raise e => Raise e
        | Ok text => Ok (clean_up text)
        end
    end in
  match body with
  | Ok text => (Ok text, [])
  | Raise e =>
      (Raise e, ["Error loading web page " +:+ url +:+ ": " +:+ str_exn e])
  end.

(** [DocumentProcessor.process_file(file_path, source_name=None)] *)
Definition process_file (self : DocumentProcessor.t splitter)
    (file_path : string) (source_name : option string)
    : logged (list document) :=
  let source_name := default file_path source_name in
  match load_text_file file_path with
  | (Raise e, log) => (Raise e, log)
  | (Ok text, log) =>
      (Ok (DocumentProcessor.chunk_text splitter split_text self text
             (Some (<["file_path" := SStr file_path]>
                      (<["type" := SStr "file"]>
                         {["source" := SStr source_name]})))), log)
  end.

(** [DocumentProcessor.process_url(url, source_name=None)] *)
Definition process_url (self : DocumentProcessor.t splitter) (url : string)
    (source_name : option string) : logged (list document) :=
  let source_name := default url source_name in
  match load_web_page url with
  | (Raise e, log) => (Raise e, log)
  | (Ok text, log) =>
      (Ok (DocumentProcessor.chunk_text splitter split_text self text
             (Some (<["url" := SStr url]>
                      (<["type" := SStr "web"]>
                         {["source" := SStr source_name]})))), log)
  end.
End with_io.
End DocumentProcessor_io.

(** ** The sample documents *)

(** The text of the sample with source [ai_overview]. *)
Definition ai_overview_text : string :=
"
            Artificial Intelligence (AI) is a broad field of computer science focused on creating systems 
            capable of performing tasks that typically require human intelligence. These tasks include 
            learning, reasoning, problem-solving, perception, and language understanding.
            
            Machine Learning is a subset of AI that focuses on algorithms that can learn from and make 
            predictions or decisions based on data. Instead of being explicitly programmed for every task, 
            these systems improve their performance through experience.
            
            Deep Learning is a subset of machine learning that uses neural networks with multiple layers 
            to model and understand complex patterns in data. It has been particularly successful in areas 
            like image recognition, natural language processing, and speech recognition.
            ".

(** The text of the sample with source [python_overview]. *)
Definition python_overview_text : string :=
"
            Python is a high-level, interpreted programming language known for its simplicity and readability. 
            Created by Guido van Rossum and first released in 1991, Python has become one of the most popular 
            programming languages in the world.
            
            Python's design philosophy emphasizes code readability and a syntax that allows programmers to 
            express concepts in fewer lines of code. This makes it an excellent choice for beginners and 
            experienced developers alike.
            
            Python is widely used in various domains including web development, data science, artificial 
            intelligence, scientific computing, automation, and more. Its extensive library ecosystem and 
            active community make it a versatile tool for many applications.
            ".

(** The text of the sample with source [vector_db_overview]. *)
Definition vector_db_overview_text : string :=
"
            Vector databases are specialized databases designed to store, index, and query high-dimensional 
            vector data efficiently. They are essential components in modern AI applications, particularly 
            those involving machine learning and semantic search.
            
            Traditional databases store structured data in rows and columns, but vector databases store 
            mathematical representations of data as vectors in high-dimensional space. This allows for 
            similarity searches based on semantic meaning rather than exact matches.
            
            ChromaDB is an open-source vector database that makes it easy to build AI applications. It 
            provides a simple API for storing embeddings and performing similarity searches, making it 
            ideal for retrieval-augmented generation (RAG) systems.
            ".

(** The list [sample_texts] of [load_sample_documents]: text and source. *)
Definition sample_texts : list (string * string) :=
  [ (ai_overview_text, "ai_overview");
    (python_overview_text, "python_overview");
    (vector_db_overview_text, "vector_db_overview") ].

(** [load_sample_documents()] of [doc_processing.py]. *)
Definition DocProcessor_load_sample_documents (splitter : Type)
    (RecursiveCharacterTextSplitter : Z → Z → result splitter)
    (split_text : splitter → string → list string)
    : result (list document) :=
  match DocProcessor.init splitter RecursiveCharacterTextSplitter 500 50 with
  | Raise e => Raise e
  | Ok processor =>
      Ok (sample_texts ≫=
            (λ item, DocProcessor.process_text splitter split_text processor
                       (fst item) (snd item)))
  end.

(** [load_sample_documents()] of [document_utils.py]. *)
Definition DocumentProcessor_load_sample_documents (splitter : Type)
    (RecursiveCharacterTextSplitter : Z → Z → result splitter)
    (split_text : splitter → string → list string)
    : result (list document) :=
  match DocumentProcessor.init splitter RecursiveCharacterTextSplitter 500 50
  with
  | Raise e => Raise e
  | Ok processor =>
      Ok (sample_texts ≫=
            (λ item, DocumentProcessor.process_text splitter split_text
                       processor (fst item) (snd item)))
  end.

(** ** [SimpleRAG.get_collection_info] *)

Module SimpleRAG_info.

(** [self.collection_name], set in [__init__]. *)
Definition collection_name : string := "rag_documents".

Section with_backend.
Variable Emb : Type.
(** [self.collection.count()], which may raise. *)
Variable collection_count : M Emb Z.

(** [SimpleRAG.get_collection_info()] *)
Definition get_collection_info : M Emb (gmap string scalar) :=
  λ w, match collection_count w with
       | (Ok count, w') =>
           (Ok (<["document_count" := SInt count]>
                  {["collection_name" := SStr collection_name]}), w')
       | (Raise e, w') =>
           (run emit (LogError ("Error getting collection info: "
                                  +:+ str_exn e));
            ret {["error" := SStr (str_exn e)]}) w'
       end.
End with_backend.
Arguments get_collection_info {Emb} _.
End SimpleRAG_info.

(** ** A small instance of the outside world of the processors *)

Module Sample_io.

(** A splitter is its chunk size; the constructor refuses a chunk size that
    is not positive. *)
Definition make_splitter (chunk_size chunk_overlap : Z) : result nat :=
  if decide (0 < chunk_size)%Z then Ok (Z.to_nat chunk_size)
  else Raise (CollaboratorError "chunk_size must be > 0").

(** One file exists. *)
Definition open_read (file_path : string) : result string :=
  if decide (file_path = "notes.txt") then Ok "retrieval"
  else Raise (CollaboratorError "No such file or directory").

(** A response is the body of the page; the empty address is refused. *)
Definition requests_get (url agent : string) : result string :=
  if decide (url = "") then Raise (CollaboratorError "Invalid URL")
  else Ok ("  Title   of page " +:+ nl +:+ nl +:+ " for " +:+ url +:+ "  ").

Definition soup_get_text (r : string) : result string := Ok r.

(** A page whose text is already one trimmed, single-spaced line. *)
Definition requests_get_clean (url agent : string) : result string :=
  Ok "Vector databases".

End Sample_io.

(** * Properties *)

(** ** Chunk documents *)

Lemma chunk_id_chunk_document metadata n i chunk :
  chunk_id (chunk_document metadata n i chunk) = Some (SInt (Z.of_nat i)).
Proof.
  unfold chunk_id, chunk_document; simpl.
  rewrite lookup_insert_ne by done.
  apply lookup_insert_eq.
Qed.

Lemma chunk_count_chunk_document metadata n i chunk :
  chunk_count (chunk_document metadata n i chunk) = Some (SInt (Z.of_nat n)).
Proof.
  unfold chunk_count, chunk_document; simpl.
  apply lookup_insert_eq.
Qed.

(** The keys of the caller's metadata other than the two chunk keys are
    carried over unchanged. *)
Lemma metadata_chunk_document (metadata : gmap string scalar) n i chunk key :
  key ≠ "chunk_id" → key ≠ "chunk_count" →
  doc_metadata (chunk_document metadata n i chunk)
    ≫= (λ m : gmap string scalar, m !! key) = metadata !! key.
Proof.
  intros Hid Hcount. unfold chunk_document; simpl.
  rewrite lookup_insert_ne by done.
  by rewrite lookup_insert_ne.
Qed.

Section chunk_documents.
Variable metadata : gmap string scalar.
Variable chunks : list string.

Let docs := imap (chunk_document metadata (length chunks)) chunks.

Lemma chunk_documents_length : length docs = length chunks.
Proof. apply length_imap. Qed.

Lemma chunk_documents_lookup i d :
  docs !! i = Some d →
  doc_text d = chunks !! i ∧
  chunk_id d = Some (SInt (Z.of_nat i)) ∧
  chunk_count d = Some (SInt (Z.of_nat (length chunks))).
Proof.
  subst docs. rewrite list_lookup_imap.
  destruct (chunks !! i) as [chunk|] eqn:Hchunk; simpl; [|done].
  intros [= <-]. split; [done|]. split.
  - apply chunk_id_chunk_document.
  - apply chunk_count_chunk_document.
Qed.

Lemma chunk_documents_indices :
  chunk_id <$> docs =
  (λ i, Some (SInt (Z.of_nat i))) <$> seq 0 (length chunks).
Proof.
  subst docs. apply list_eq; intros i.
  rewrite !list_lookup_fmap, list_lookup_imap.
  destruct (chunks !! i) as [chunk|] eqn:Hchunk; simpl.
  - rewrite lookup_seq_lt by (eapply lookup_lt_Some; eauto); simpl.
    by rewrite chunk_id_chunk_document.
  - rewrite lookup_seq_ge by (by apply lookup_ge_None). done.
Qed.

Lemma chunk_documents_texts : doc_text <$> docs = Some <$> chunks.
Proof.
  subst docs. apply list_eq; intros i.
  rewrite !list_lookup_fmap, list_lookup_imap.
  by destruct (chunks !! i).
Qed.
End chunk_documents.

(** The constructors only forward their arguments to the splitter's
    constructor: they raise exactly when it does, with its exception. *)
Lemma DocProcessor_init_forwards {splitter}
    (make : Z → Z → result splitter) chunk_size chunk_overlap :
  DocProcessor.init splitter make chunk_size chunk_overlap =
    match make chunk_size chunk_overlap with
    | Ok s => Ok (DocProcessor.Build_t s)
    | Raise e => Raise e
    end
  ∧ DocumentProcessor.init splitter make chunk_size chunk_overlap =
    match make chunk_size chunk_overlap with
    | Ok s => Ok (DocumentProcessor.Build_t s)
    | Raise e => Raise e
    end.
Proof. done. Qed.

(** The two classes chunk alike. *)
Lemma chunk_text_agree {splitter} (split_text : splitter → string → list string)
    s text metadata :
  DocumentProcessor.chunk_text splitter split_text
    (DocumentProcessor.Build_t s) text metadata =
  DocProcessor.chunk_text splitter split_text
    (DocProcessor.Build_t s) text metadata.
Proof. done. Qed.

(** The texts of the documents are the splitter's chunks, in its order. *)
Lemma chunk_text_texts {splitter} (split_text : splitter → string → list string)
    self text metadata :
  doc_text <$> DocProcessor.chunk_text splitter split_text self text metadata
  = Some <$> split_text (DocProcessor.text_splitter self) text.
Proof. apply chunk_documents_texts. Qed.

(** C5: for a text that the splitter cuts into [n] chunks, [chunk_text] (of
    [DocProcessor] and of [DocumentProcessor]) returns [n] documents; the
    document at position [i] holds chunk [i] and carries in its metadata the
    index [i] under ['chunk_id'] and [n] under ['chunk_count']; read in order,
    the indices of one call are exactly 0, 1, ..., n-1, so the range [0, n)
    without duplicates or gaps. *)
Theorem chunk_text_index_range {splitter}
    (split_text : splitter → string → list string) (s : splitter)
    (text : string) (metadata : option (gmap string scalar)) :
  let chunks := split_text s text in
  let n := length chunks in
  ∀ docs,
    docs = DocProcessor.chunk_text splitter split_text
             (DocProcessor.Build_t s) text metadata ∨
    docs = DocumentProcessor.chunk_text splitter split_text
             (DocumentProcessor.Build_t s) text metadata →
    length docs = n ∧
    (∀ i d, docs !! i = Some d →
       doc_text d = chunks !! i ∧
       chunk_id d = Some (SInt (Z.of_nat i)) ∧
       chunk_count d = Some (SInt (Z.of_nat n))) ∧
    chunk_id <$> docs = (λ i, Some (SInt (Z.of_nat i))) <$> seq 0 n.
Proof.
  intros chunks n docs Hdocs.
  assert (docs = imap (chunk_document (default ∅ metadata) (length chunks))
                   chunks) as ->.
  { destruct Hdocs as [-> | ->]; reflexivity. }
  split; [apply chunk_documents_length|].
  split; [apply chunk_documents_lookup|apply chunk_documents_indices].
Qed.

Lemma chunk_text_index_range_witness :
  let docs :=
    DocProcessor.chunk_text nat Sample.split_text (DocProcessor.Build_t 4%nat)
      "retrieval" (Some {["source" := SStr "notes"]}) in
  doc_id <$> docs = [Some "notes_0"; Some "notes_1"; Some "notes_2"] ∧
  length docs = 3%nat ∧
  (∀ i d, docs !! i = Some d →
     doc_text d = ["retr"; "ieva"; "l"] !! i ∧
     chunk_id d = Some (SInt (Z.of_nat i)) ∧
     chunk_count d = Some (SInt 3)) ∧
  chunk_id <$> docs = [Some (SInt 0); Some (SInt 1); Some (SInt 2)].
Proof.
  intros docs. split; [reflexivity|].
  apply (chunk_text_index_range Sample.split_text 4%nat "retrieval"
           (Some {["source" := SStr "notes"]}) docs).
  left. reflexivity.
Defined.

(** ** The state monad *)

Lemma world_eta {Emb} (w : world Emb) :
  {| collection := collection w; trace := trace w |} = w.
Proof. by destruct w. Qed.

Lemma count_events_app {Emb} (p : event Emb → bool) evs1 evs2 :
  count_events p (evs1 ++ evs2) = count_events p evs1 + count_events p evs2.
Proof. induction evs1 as [|ev evs1 IH]; simpl; [done|]. rewrite IH. lia. Qed.

Lemma count_events_fmap_none {Emb A} (p : event Emb → bool)
    (f : A → event Emb) l :
  (∀ a, p (f a) = false) → count_events p (f <$> l) = 0.
Proof.
  intros Hf. induction l as [|a l IH]; [done|].
  rewrite fmap_cons. simpl. by rewrite Hf.
Qed.

Lemma count_events_fmap_all {Emb A} (p : event Emb → bool)
    (f : A → event Emb) l :
  (∀ a, p (f a) = true) → count_events p (f <$> l) = length l.
Proof.
  intros Hf. induction l as [|a l IH]; [done|].
  rewrite fmap_cons. simpl. by rewrite Hf, IH.
Qed.

(** ** The collection backend *)

Section collection_facts.
Context {Emb : Type}.
Implicit Types (e : entry Emb) (es : list (entry Emb)).

Lemma entries_of_lookup (ts : list string) (vs : list Emb)
    (ms : list (gmap string scalar)) (is_ : list string) i id_ t m v :
  is_ !! i = Some id_ → ts !! i = Some t → ms !! i = Some m →
  vs !! i = Some v →
  Collection.entries_of ts vs ms is_ !! i = Some (Build_entry id_ t m v).
Proof.
  revert ts vs ms is_.
  induction i as [|i IH]; intros [|t' ts] [|v' vs] [|m' ms] [|i' is_];
    simpl; try done.
  - by intros [= ->] [= ->] [= ->] [= ->].
  - apply IH.
Qed.

Lemma entries_of_ids_subseteq (ts : list string) (vs : list Emb)
    (ms : list (gmap string scalar)) (is_ : list string) x :
  x ∈ entry_id <$> Collection.entries_of ts vs ms is_ → x ∈ is_.
Proof.
  revert ts vs ms. induction is_ as [|i is_ IH];
    intros [|t ts] [|v vs] [|m ms]; try (simpl; by intros ?%elem_of_nil).
  cbn [Collection.entries_of]. rewrite fmap_cons.
  intros [->|Hx]%elem_of_cons; [apply list_elem_of_here|].
  apply list_elem_of_further. by eapply IH.
Qed.

Lemma entries_of_NoDup (ts : list string) (vs : list Emb)
    (ms : list (gmap string scalar)) (is_ : list string) :
  NoDup is_ → NoDup (entry_id <$> Collection.entries_of ts vs ms is_).
Proof.
  intros Hnd. revert ts vs ms.
  induction Hnd as [|i is_ Hi Hnd IH]; intros [|t ts] [|v vs] [|m ms];
    try (simpl; apply NoDup_nil_2).
  cbn [Collection.entries_of]. rewrite fmap_cons.
  apply NoDup_cons_2; [|apply IH].
  intros Hin. by apply entries_of_ids_subseteq in Hin.
Qed.

Lemma upsert_holds e es : e ∈ Collection.upsert e es.
Proof.
  induction es as [|x es IH]; simpl; [apply list_elem_of_here|].
  case_decide; [apply list_elem_of_here|by apply list_elem_of_further].
Qed.

(** An upsert under another id leaves an entry where it is. *)
Lemma upsert_keeps_entry x e es :
  e ∈ es → entry_id x ≠ entry_id e → e ∈ Collection.upsert x es.
Proof.
  intros He Hx. induction es as [|y es IH]; [by apply elem_of_nil in He|].
  simpl. apply elem_of_cons in He as [<-|He].
  - rewrite decide_False by done. apply list_elem_of_here.
  - case_decide; apply list_elem_of_further; auto.
Qed.

Lemma fold_upsert_keeps_entry (batch : list (entry Emb)) es e :
  e ∈ es → entry_id e ∉ entry_id <$> batch →
  e ∈ fold_left (λ acc e, Collection.upsert e acc) batch es.
Proof.
  revert es. induction batch as [|x batch IH]; intros es He Hid; simpl;
    [done|].
  rewrite fmap_cons in Hid. apply not_elem_of_cons in Hid as [Hx Hid].
  apply IH; [|done]. apply upsert_keeps_entry; [done|congruence].
Qed.

(** A row of a batch with pairwise distinct ids is an entry after the
    upserts of the batch. *)
Lemma fold_upsert_holds (batch : list (entry Emb)) es e :
  e ∈ batch → NoDup (entry_id <$> batch) →
  e ∈ fold_left (λ acc e, Collection.upsert e acc) batch es.
Proof.
  revert es. induction batch as [|x batch IH]; intros es He Hnd; simpl.
  - by apply elem_of_nil in He.
  - rewrite fmap_cons in Hnd. apply NoDup_cons in Hnd as [Hx Hnd].
    apply elem_of_cons in He as [->|He].
    + apply fold_upsert_keeps_entry; [apply upsert_holds|done].
    + by apply IH.
Qed.

(** The collection of the specification, which overwrites, persists the
    rows of a batch with pairwise distinct ids. *)
Lemma add_call_persists_new_rows :
  persists_new_rows (Collection.add_call (Emb:=Emb)).
Proof.
  intros es ts vs ms is_ es' i id_ t m v Hadd Hnd Hi Ht Hm Hv _.
  unfold Collection.add_call in Hadd. injection Hadd as <-.
  unfold Collection.add. apply fold_upsert_holds.
  - eapply list_elem_of_lookup_2. by apply entries_of_lookup.
  - by apply entries_of_NoDup.
Qed.

(** Where ids are keys, the entry under an id is the only one. *)
Lemma entry_under_id es e e' :
  NoDup (entry_id <$> es) → e ∈ es → e' ∈ es → entry_id e = entry_id e' →
  e = e'.
Proof.
  induction es as [|x es IH]; [by intros _ ?%elem_of_nil|].
  rewrite fmap_cons. intros [Hx Hnd]%NoDup_cons He He' Hid.
  apply elem_of_cons in He as [->|He]; apply elem_of_cons in He' as [->|He'].
  - done.
  - destruct Hx. rewrite Hid. by apply list_elem_of_fmap_2.
  - destruct Hx. rewrite <- Hid. by apply list_elem_of_fmap_2.
  - by apply IH.
Qed.

End collection_facts.

(** ** [SimpleRAG.create_embedding] and [SimpleRAG.add_documents] *)

Section add_documents_facts.
Context {Emb : Type}.
Variable embedding_model : string.
Variable embeddings_create : string → string → result Emb.
Variable chroma_add :
  list (entry Emb) → list string → list Emb → list (gmap string scalar) →
  list string → result unit * list (entry Emb).

Let create_embedding :=
  SimpleRAG.create_embedding embedding_model embeddings_create.
Let add_documents_loop :=
  SimpleRAG.add_documents_loop embedding_model embeddings_create.
Let add_documents :=
  SimpleRAG.add_documents embedding_model embeddings_create chroma_add.

Lemma create_embedding_ok text v (w : world Emb) :
  embeddings_create embedding_model text = Ok v →
  create_embedding text w =
    (Ok v, {| collection := collection w;
              trace := trace w ++ [EmbeddingsCreate embedding_model text] |}).
Proof.
  intros Hv. subst create_embedding.
  unfold SimpleRAG.create_embedding, log_and_reraise, bind, emit, lift.
  simpl. by rewrite Hv.
Qed.

Lemma create_embedding_raise text e (w : world Emb) :
  embeddings_create embedding_model text = Raise e →
  create_embedding text w =
    (Raise e,
     {| collection := collection w;
        trace := trace w ++
          [EmbeddingsCreate embedding_model text;
           LogError ("Error creating embedding: " +:+ str_exn e)] |}).
Proof.
  intros He. subst create_embedding.
  unfold SimpleRAG.create_embedding, log_and_reraise, bind, emit, lift, raise.
  simpl. rewrite He. simpl. by rewrite <- app_assoc.
Qed.

(** What a run of the loop that returns has done: one embedding call per
    document, in order, and nothing else. *)
Lemma add_documents_loop_ok documents : ∀ i b b' (w w' : world Emb),
  add_documents_loop i documents b w = (Ok b', w') →
  ∃ ts vs,
    doc_text <$> documents = Some <$> ts ∧
    Forall2 (λ t v, embeddings_create embedding_model t = Ok v) ts vs ∧
    SimpleRAG.texts b' = SimpleRAG.texts b ++ ts ∧
    SimpleRAG.embeddings b' = SimpleRAG.embeddings b ++ vs ∧
    SimpleRAG.metadatas b' =
      SimpleRAG.metadatas b ++ ((λ d, default ∅ (doc_metadata d)) <$> documents) ∧
    SimpleRAG.ids b' =
      SimpleRAG.ids b ++ imap (λ j, assigned_id (i + j)) documents ∧
    collection w' = collection w ∧
    trace w' = trace w ++ (EmbeddingsCreate embedding_model <$> ts).
Proof.
  subst add_documents_loop.
  induction documents as [|doc rest IH]; intros i b b' w w' Hloop;
    simpl in Hloop.
  - injection Hloop as <- <-. exists [], [].
    rewrite !app_nil_r. by repeat split.
  - unfold bind at 1 in Hloop. unfold SimpleRAG.getitem_text in Hloop.
    destruct (doc_text doc) as [text|] eqn:Htext; [|done].
    unfold ret at 1 in Hloop. unfold bind at 1 in Hloop.
    fold create_embedding in Hloop.
    destruct (embeddings_create embedding_model text) as [v|e] eqn:Hv.
    + rewrite (create_embedding_ok _ _ _ Hv) in Hloop.
      apply IH in Hloop
        as (ts & vs & Hts & Hvs & Ht & He & Hm & Hi & Hc & Htr).
      simpl in Ht, He, Hm, Hi, Hc, Htr. exists (text :: ts), (v :: vs).
      rewrite Ht, He, Hm, Hi, Hc, Htr, <- !app_assoc, !fmap_cons.
      rewrite Htext, Hts. repeat split; try done.
      * by constructor.
      * simpl. rewrite Nat.add_0_r. do 2 f_equal.
        apply imap_ext. intros j d _. simpl. f_equal. lia.
    + by rewrite (create_embedding_raise _ _ _ Hv) in Hloop.
Qed.

(** The collection is never touched inside the loop, and the loop never
    calls the collection. *)
Lemma add_documents_loop_collection documents : ∀ i b r (w w' : world Emb),
  add_documents_loop i documents b w = (r, w') →
  collection w' = collection w ∧
  ∃ evs, trace w' = trace w ++ evs ∧
         count_events is_collection_add evs = 0.
Proof.
  subst add_documents_loop.
  induction documents as [|doc rest IH]; intros i b r w w' Hloop;
    simpl in Hloop.
  - injection Hloop as <- <-. split; [done|].
    exists []. by rewrite app_nil_r.
  - unfold bind at 1 in Hloop. unfold SimpleRAG.getitem_text in Hloop.
    destruct (doc_text doc) as [text|] eqn:Htext.
    + unfold ret at 1 in Hloop. unfold bind at 1 in Hloop.
      fold create_embedding in Hloop.
      destruct (embeddings_create embedding_model text) as [v|e] eqn:Hv.
      * rewrite (create_embedding_ok _ _ _ Hv) in Hloop.
        apply IH in Hloop as (Hc & evs & Htr & Hn).
        simpl in Hc, Htr. split; [done|].
        exists (EmbeddingsCreate embedding_model text :: evs).
        by rewrite Htr, <- app_assoc.
      * rewrite (create_embedding_raise _ _ _ Hv) in Hloop.
        injection Hloop as <- <-. simpl. split; [done|].
        by eexists.
    + injection Hloop as <- <-. split; [done|].
      exists []. by rewrite app_nil_r.
Qed.

(** A document whose embedding fails makes the loop raise. *)
Lemma add_documents_loop_raise documents : ∀ i b (w : world Emb) d t e,
  d ∈ documents → doc_text d = Some t →
  embeddings_create embedding_model t = Raise e →
  ∃ e' w', add_documents_loop i documents b w = (Raise e', w').
Proof.
  subst add_documents_loop.
  induction documents as [|doc rest IH]; intros i b w d t e Hd Ht He.
  - by apply elem_of_nil in Hd.
  - simpl. unfold bind at 1. unfold SimpleRAG.getitem_text.
    destruct (doc_text doc) as [text|] eqn:Htext; [|by eexists _, _].
    unfold ret at 1. unfold bind at 1.
    destruct (embeddings_create embedding_model text) as [v|e0] eqn:Hv.
    + fold create_embedding. rewrite (create_embedding_ok _ _ _ Hv).
      apply elem_of_cons in Hd as [->|Hd]; [congruence|].
      eapply IH; eauto.
    + fold create_embedding. rewrite (create_embedding_raise _ _ _ Hv).
      by eexists _, _.
Qed.

(** [add_documents] when its loop raises: the exception is logged and
    raised again, the collection is not called. *)
Lemma add_documents_of_loop_raise documents (w w1 : world Emb) e :
  add_documents_loop 0 documents
    {| SimpleRAG.texts := []; SimpleRAG.embeddings := [];
       SimpleRAG.metadatas := []; SimpleRAG.ids := [] |} w = (Raise e, w1) →
  add_documents documents w =
    (Raise e,
     {| collection := collection w1;
        trace := trace w1
          ++ [LogError ("Error adding documents: " +:+ str_exn e)] |}).
Proof.
  subst add_documents add_documents_loop. intros Hloop.
  unfold SimpleRAG.add_documents, log_and_reraise.
  unfold bind at 1. by rewrite Hloop.
Qed.

(** [add_documents] when its loop returns and the collection accepts the
    batch: one [add] call with the four lists, then the log line. *)
Lemma add_documents_of_loop_ok documents (w w1 : world Emb) b es :
  add_documents_loop 0 documents
    {| SimpleRAG.texts := []; SimpleRAG.embeddings := [];
       SimpleRAG.metadatas := []; SimpleRAG.ids := [] |} w = (Ok b, w1) →
  chroma_add (collection w1) (SimpleRAG.texts b) (SimpleRAG.embeddings b)
    (SimpleRAG.metadatas b) (SimpleRAG.ids b) = (Ok tt, es) →
  add_documents documents w =
    (Ok tt,
     {| collection := es;
        trace := trace w1
          ++ [CollectionAdd (SimpleRAG.texts b) (SimpleRAG.embeddings b)
                (SimpleRAG.metadatas b) (SimpleRAG.ids b);
              LogInfo ("Added " +:+ pretty (length documents)
                         +:+ " documents to the collection")] |}).
Proof.
  subst add_documents add_documents_loop. intros Hloop Hadd.
  unfold SimpleRAG.add_documents, log_and_reraise.
  unfold bind at 1. rewrite Hloop.
  unfold bind, SimpleRAG.collection_add, emit. rewrite Hadd. simpl.
  by rewrite <- app_assoc.
Qed.

(** [add_documents] when its loop returns and the collection refuses the
    batch: the [add] call is the last call, its exception is logged and
    raised again. *)
Lemma add_documents_of_add_raise documents (w w1 : world Emb) b e es :
  add_documents_loop 0 documents
    {| SimpleRAG.texts := []; SimpleRAG.embeddings := [];
       SimpleRAG.metadatas := []; SimpleRAG.ids := [] |} w = (Ok b, w1) →
  chroma_add (collection w1) (SimpleRAG.texts b) (SimpleRAG.embeddings b)
    (SimpleRAG.metadatas b) (SimpleRAG.ids b) = (Raise e, es) →
  add_documents documents w =
    (Raise e,
     {| collection := es;
        trace := trace w1
          ++ [CollectionAdd (SimpleRAG.texts b) (SimpleRAG.embeddings b)
                (SimpleRAG.metadatas b) (SimpleRAG.ids b);
              LogError ("Error adding documents: " +:+ str_exn e)] |}).
Proof.
  subst add_documents add_documents_loop. intros Hloop Hadd.
  unfold SimpleRAG.add_documents, log_and_reraise.
  unfold bind at 1. rewrite Hloop.
  unfold bind, SimpleRAG.collection_add, emit, raise. rewrite Hadd. simpl.
  by rewrite <- app_assoc.
Qed.

(** Every return of [add_documents] comes from a loop that returned and an
    [add] call that returned. *)
Lemma add_documents_ok_inv documents (w w' : world Emb) :
  add_documents documents w = (Ok tt, w') →
  ∃ b w1,
    add_documents_loop 0 documents
      {| SimpleRAG.texts := []; SimpleRAG.embeddings := [];
         SimpleRAG.metadatas := []; SimpleRAG.ids := [] |} w = (Ok b, w1) ∧
    chroma_add (collection w1) (SimpleRAG.texts b) (SimpleRAG.embeddings b)
      (SimpleRAG.metadatas b) (SimpleRAG.ids b) = (Ok tt, collection w') ∧
    trace w' =
      trace w1
        ++ [CollectionAdd (SimpleRAG.texts b) (SimpleRAG.embeddings b)
              (SimpleRAG.metadatas b) (SimpleRAG.ids b);
            LogInfo ("Added " +:+ pretty (length documents)
                       +:+ " documents to the collection")].
Proof.
  intros Hadd.
  destruct (add_documents_loop 0 documents
              {| SimpleRAG.texts := []; SimpleRAG.embeddings := [];
                 SimpleRAG.metadatas := []; SimpleRAG.ids := [] |} w)
    as [[b|e] w1] eqn:Hloop.
  - destruct (chroma_add (collection w1) (SimpleRAG.texts b)
                (SimpleRAG.embeddings b) (SimpleRAG.metadatas b)
                (SimpleRAG.ids b)) as [[[]|e] es] eqn:Hcall.
    + rewrite (add_documents_of_loop_ok _ _ _ _ _ Hloop Hcall) in Hadd.
      injection Hadd as <-. by exists b, w1.
    + by rewrite (add_documents_of_add_raise _ _ _ _ _ _ Hloop Hcall) in Hadd.
  - by rewrite (add_documents_of_loop_raise _ _ _ _ Hloop) in Hadd.
Qed.

(** The batch that a returning loop hands to the collection, row by row. *)
Lemma add_documents_loop_rows documents b (w w1 : world Emb) :
  add_documents_loop 0 documents
    {| SimpleRAG.texts := []; SimpleRAG.embeddings := [];
       SimpleRAG.metadatas := []; SimpleRAG.ids := [] |} w = (Ok b, w1) →
  SimpleRAG.metadatas b = (λ d, default ∅ (doc_metadata d)) <$> documents ∧
  SimpleRAG.ids b = imap assigned_id documents ∧
  collection w1 = collection w ∧
  trace w1 =
    trace w ++ (EmbeddingsCreate embedding_model <$> SimpleRAG.texts b) ∧
  length (SimpleRAG.texts b) = length documents ∧
  length (SimpleRAG.embeddings b) = length documents ∧
  ∀ i doc, documents !! i = Some doc →
    ∃ t v,
      doc_text doc = Some t ∧ SimpleRAG.texts b !! i = Some t ∧
      SimpleRAG.embeddings b !! i = Some v ∧
      embeddings_create embedding_model t = Ok v.
Proof.
  intros Hloop.
  apply add_documents_loop_ok in Hloop
    as (ts & vs & Hts & Hvs & Ht & He & Hm & Hi & Hc & Htr).
  simpl in Ht, He, Hm, Hi. rewrite Ht, He, Hm, Hi.
  assert (length ts = length documents) as Hlen.
  { by rewrite <- (length_fmap Some ts), <- Hts, length_fmap. }
  repeat split; try done.
  - rewrite <- Hlen. symmetry. eapply Forall2_length, Hvs.
  - intros i doc Hdoc.
    assert ((doc_text <$> documents) !! i = Some (doc_text doc)) as Hi'.
    { by rewrite list_lookup_fmap, Hdoc. }
    rewrite Hts, list_lookup_fmap in Hi'.
    destruct (ts !! i) as [t|] eqn:Hti; [|done]. injection Hi' as Hdt.
    destruct (Forall2_lookup_l _ _ _ _ _ Hvs Hti) as (v & Hvi & Hv).
    by exists t, v.
Qed.
End add_documents_facts.

(** The sample collection persists the new rows of the batches it
    accepts. *)
Lemma chroma_add_persists_new_rows : persists_new_rows Sample.chroma_add.
Proof.
  intros es ts vs ms is_ es' i id_ t m v Hadd Hnd Hi Ht Hm Hv Hnew.
  unfold Sample.chroma_add in Hadd.
  destruct (decide (is_ = [])); [done|].
  destruct (existsb _ ms); [done|].
  destruct (decide (NoDup is_)); [|done].
  injection Hadd as <-.
  apply elem_of_app. right. apply list_elem_of_filter. split; [done|].
  eapply list_elem_of_lookup_2. by apply entries_of_lookup.
Qed.

(** C9: when the embedding call fails for some document of the batch,
    [add_documents] raises, the persisted collection is the one from before
    the call, and the collection's [add] was not called: the embeddings are
    all computed in the loop, ahead of the one [add] call behind it. *)
Theorem add_documents_all_or_nothing {Emb} (embedding_model : string)
    (embeddings_create : string → string → result Emb)
    (chroma_add :
       list (entry Emb) → list string → list Emb →
       list (gmap string scalar) → list string →
       result unit * list (entry Emb))
    (documents : list document) (w : world Emb) d t e :
  d ∈ documents → doc_text d = Some t →
  embeddings_create embedding_model t = Raise e →
  ∃ e' w',
    SimpleRAG.add_documents embedding_model embeddings_create chroma_add
      documents w = (Raise e', w') ∧
    collection w' = collection w ∧
    count_events is_collection_add (trace w')
      = count_events is_collection_add (trace w).
Proof.
  intros Hd Ht He.
  destruct (add_documents_loop_raise embedding_model embeddings_create
              documents 0
              {| SimpleRAG.texts := []; SimpleRAG.embeddings := [];
                 SimpleRAG.metadatas := []; SimpleRAG.ids := [] |}
              w d t e Hd Ht He) as (e' & w1 & Hloop).
  exists e'. eexists. split.
  - by apply add_documents_of_loop_raise.
  - apply add_documents_loop_collection in Hloop as (Hc & evs & Htr & Hn).
    simpl. split; [done|].
    rewrite Htr, !count_events_app, Hn. simpl. lia.
Qed.

Lemma add_documents_all_or_nothing_witness :
  ∃ e' w',
    SimpleRAG.add_documents "text-embedding-3-small" Sample.embeddings_create
      Sample.chroma_add Sample.docs_failing Sample.world_abc
      = (Raise e', w') ∧
    collection w' = collection Sample.world_abc ∧
    count_events is_collection_add (trace w')
      = count_events is_collection_add (trace Sample.world_abc).
Proof.
  apply (add_documents_all_or_nothing "text-embedding-3-small"
           Sample.embeddings_create Sample.chroma_add Sample.docs_failing
           Sample.world_abc
           {| doc_text := Some ""; doc_metadata := None; doc_id := Some "c" |}
           "" (CollaboratorError "empty input")).
  - unfold Sample.docs_failing. do 2 apply list_elem_of_further.
    apply list_elem_of_here.
  - reflexivity.
  - reflexivity.
Defined.

(** C10, as stated, fails: in the batch [docs_clash] the first document
    carries the id ["doc_1"], which is also the positional identifier of the
    second document, so [add_documents] hands both rows to the collection
    under one id. A collection that refuses a repeated id, as chromadb does,
    raises and persists neither document; the collection of the
    specification, which overwrites, returns and keeps the second document
    under ["doc_1"] and the first document under no id; and in no collection
    whose ids are keys are both documents persisted under their ids. *)
Lemma add_documents_ids_counterexample :
  imap assigned_id Sample.docs_clash = ["doc_1"; "doc_1"] ∧
  (let outcome :=
     SimpleRAG.add_documents "text-embedding-3-small"
       Sample.embeddings_create Sample.chroma_add Sample.docs_clash
       Sample.empty_world in
   fst outcome = Raise (CollaboratorError "duplicate ids") ∧
   ¬ persisted_under (collection (snd outcome)) "doc_1" "alpha" ∧
   ¬ persisted_under (collection (snd outcome)) "doc_1" "be") ∧
  (let outcome :=
     SimpleRAG.add_documents "text-embedding-3-small"
       Sample.embeddings_create Collection.add_call Sample.docs_clash
       Sample.empty_world in
   fst outcome = Ok tt ∧
   persisted_under (collection (snd outcome)) "doc_1" "be" ∧
   ∀ id_, ¬ persisted_under (collection (snd outcome)) id_ "alpha") ∧
  (∀ es : list (entry Z),
     NoDup (entry_id <$> es) →
     ¬ (persisted_under es "doc_1" "alpha" ∧ persisted_under es "doc_1" "be")).
Proof.
  split; [reflexivity|]. split; [|split].
  - simpl. split; [reflexivity|].
    split; intros (e & He & _); by apply elem_of_nil in He.
  - simpl. split; [reflexivity|]. split.
    + eexists. split; [apply list_elem_of_here|]. by split.
    + intros id_ (e & He & _ & Ht).
      apply list_elem_of_singleton in He. by subst e.
  - intros es Hnd [(e & He & Hid & Ht) (e' & He' & Hid' & Ht')].
    assert (e = e') as Hee.
    { apply (entry_under_id es); [done..|congruence]. }
    subst e'. congruence.
Qed.

(** C10, amended: when [add_documents] returns, the collection's [add] was
    called once, after the embedding calls, and row [i] of that call holds
    the text of document [i], the embedding of that text, the document's
    metadata (the empty dictionary when it has none) and, as its id, the
    ['id'] of the document when it has one and ["doc_" ++ str(i)] when it has
    none. When the ids of the batch are pairwise distinct and the id of
    document [i] is not persisted yet, a collection that persists the new
    rows of the batches it accepts holds that row afterwards, and where ids
    are keys it is the only entry under that id. *)
Theorem add_documents_ids {Emb} (embedding_model : string)
    (embeddings_create : string → string → result Emb)
    (chroma_add :
       list (entry Emb) → list string → list Emb →
       list (gmap string scalar) → list string →
       result unit * list (entry Emb))
    (documents : list document) (w w' : world Emb) :
  SimpleRAG.add_documents embedding_model embeddings_create chroma_add
    documents w = (Ok tt, w') →
  ∃ ts vs ms,
    trace w' =
      trace w ++ (EmbeddingsCreate embedding_model <$> ts)
        ++ [CollectionAdd ts vs ms (imap assigned_id documents);
            LogInfo ("Added " +:+ pretty (length documents)
                       +:+ " documents to the collection")] ∧
    ∀ i doc, documents !! i = Some doc →
      (doc_id doc = None → assigned_id i doc = "doc_" +:+ pretty i) ∧
      (∀ x, doc_id doc = Some x → assigned_id i doc = x) ∧
      ∃ t v,
        doc_text doc = Some t ∧
        embeddings_create embedding_model t = Ok v ∧
        ts !! i = Some t ∧ vs !! i = Some v ∧
        ms !! i = Some (default ∅ (doc_metadata doc)) ∧
        imap assigned_id documents !! i = Some (assigned_id i doc) ∧
        (persists_new_rows chroma_add →
         NoDup (imap assigned_id documents) →
         assigned_id i doc ∉ entry_id <$> collection w →
         let row :=
           Build_entry (assigned_id i doc) t
             (default ∅ (doc_metadata doc)) v in
         row ∈ collection w' ∧
         (NoDup (entry_id <$> collection w') →
          ∀ e, e ∈ collection w' → entry_id e = assigned_id i doc →
               e = row)).
Proof.
  intros Hadd.
  apply add_documents_ok_inv in Hadd as (b & w1 & Hloop & Hcall & Htr).
  apply add_documents_loop_rows in Hloop
    as (Hm & Hi & Hc & Htr1 & Hlt & Hlv & Hrows).
  rewrite Hm, Hi, Hc in Hcall. rewrite Hm, Hi, Htr1 in Htr.
  exists (SimpleRAG.texts b), (SimpleRAG.embeddings b),
    ((λ d, default ∅ (doc_metadata d)) <$> documents).
  split; [by rewrite Htr, <- app_assoc|].
  intros i doc Hdoc.
  split; [intros Hnone; unfold assigned_id; by rewrite Hnone|].
  split; [intros x Hx; unfold assigned_id; by rewrite Hx|].
  destruct (Hrows i doc Hdoc) as (t & v & Hdt & Hti & Hvi & Hv).
  assert (imap assigned_id documents !! i = Some (assigned_id i doc)) as Hid.
  { by rewrite list_lookup_imap, Hdoc. }
  assert (((λ d, default ∅ (doc_metadata d)) <$> documents) !! i
          = Some (default ∅ (doc_metadata doc))) as Hmi.
  { by rewrite list_lookup_fmap, Hdoc. }
  exists t, v. repeat (split; [done|]).
  intros Hstore Hnd Hnew row.
  assert (row ∈ collection w') as Hrow.
  { by apply (Hstore _ _ _ _ _ _ i _ _ _ _ Hcall Hnd Hid Hti Hmi Hvi). }
  split; [done|].
  intros Hkeys e He Heid. by apply (entry_under_id (collection w')).
Qed.

Lemma add_documents_ids_witness :
  let w' :=
    snd (SimpleRAG.add_documents "text-embedding-3-small"
           Sample.embeddings_create Sample.chroma_add Sample.docs_mixed
           Sample.empty_world) in
  imap assigned_id Sample.docs_mixed = ["a"; "doc_1"; "doc_2"] ∧
  collection w' =
    [ Build_entry "a" "alpha" Sample.notes 5%Z;
      Build_entry "doc_1" "be" Sample.notes 2%Z;
      Build_entry "doc_2" "gamma ray" Sample.notes 9%Z ] ∧
  persists_new_rows Sample.chroma_add ∧
  NoDup (imap assigned_id Sample.docs_mixed) ∧
  ∃ ts vs ms,
    trace w' =
      trace Sample.empty_world
        ++ (EmbeddingsCreate "text-embedding-3-small" <$> ts)
        ++ [CollectionAdd ts vs ms (imap assigned_id Sample.docs_mixed);
            LogInfo ("Added " +:+ pretty (length Sample.docs_mixed)
                       +:+ " documents to the collection")] ∧
    ∀ i doc, Sample.docs_mixed !! i = Some doc →
      (doc_id doc = None → assigned_id i doc = "doc_" +:+ pretty i) ∧
      (∀ x, doc_id doc = Some x → assigned_id i doc = x) ∧
      ∃ t v,
        doc_text doc = Some t ∧
        Sample.embeddings_create "text-embedding-3-small" t = Ok v ∧
        ts !! i = Some t ∧ vs !! i = Some v ∧
        ms !! i = Some (default ∅ (doc_metadata doc)) ∧
        imap assigned_id Sample.docs_mixed !! i = Some (assigned_id i doc) ∧
        (persists_new_rows Sample.chroma_add →
         NoDup (imap assigned_id Sample.docs_mixed) →
         assigned_id i doc ∉ entry_id <$> collection Sample.empty_world →
         let row :=
           Build_entry (assigned_id i doc) t
             (default ∅ (doc_metadata doc)) v in
         row ∈ collection w' ∧
         (NoDup (entry_id <$> collection w') →
          ∀ e, e ∈ collection w' → entry_id e = assigned_id i doc →
               e = row)).
Proof.
  intros w'. split; [reflexivity|]. split; [reflexivity|].
  split; [apply chroma_add_persists_new_rows|].
  split; [apply (bool_decide_unpack _); by vm_compute|].
  apply (add_documents_ids "text-embedding-3-small" Sample.embeddings_create
           Sample.chroma_add Sample.docs_mixed Sample.empty_world w').
  reflexivity.
Defined.

(** ** The nearest-neighbour lookup *)

Section nearest_facts.
Context {Emb D : Type}.
Variable dist : Emb → Emb → D.
Variable dleb : D → D → bool.
Hypothesis dleb_total : ∀ a b, dleb a b = true ∨ dleb b a = true.

(** Non-decreasing distance, on the annotated entries. *)
Let hit_le (x y : entry Emb * D) : Prop := dleb (snd x) (snd y) = true.

Lemma insert_by_Permutation x (l : list (entry Emb * D)) :
  Collection.insert_by dleb x l ≡ₚ x :: l.
Proof.
  induction l as [|y l IH]; simpl; [done|].
  destruct (dleb x.2 y.2); [done|].
  rewrite IH. apply Permutation_swap.
Qed.

Lemma sort_by_Permutation (l : list (entry Emb * D)) :
  Collection.sort_by dleb l ≡ₚ l.
Proof.
  induction l as [|x l IH]; simpl; [done|].
  by rewrite insert_by_Permutation, IH.
Qed.

Lemma insert_by_HdRel a x (l : list (entry Emb * D)) :
  hit_le a x → HdRel hit_le a l → HdRel hit_le a (Collection.insert_by dleb x l).
Proof.
  intros Hax Hal. destruct l as [|y l]; simpl; [by constructor|].
  inversion_clear Hal. destruct (dleb x.2 y.2); by constructor.
Qed.

Lemma insert_by_Sorted x (l : list (entry Emb * D)) :
  Sorted hit_le l → Sorted hit_le (Collection.insert_by dleb x l).
Proof.
  induction 1 as [|y l Hl IH Hy]; simpl; [by repeat constructor|].
  destruct (dleb x.2 y.2) eqn:Hxy.
  - constructor; [by constructor|]. by constructor.
  - constructor; [done|]. apply insert_by_HdRel; [|done].
    destruct (dleb_total x.2 y.2) as [Hle|Hle]; [congruence|done].
Qed.

Lemma sort_by_Sorted (l : list (entry Emb * D)) :
  Sorted hit_le (Collection.sort_by dleb l).
Proof.
  induction l as [|x l IH]; simpl; [constructor|].
  by apply insert_by_Sorted.
Qed.

Lemma Sorted_take {A} (R : relation A) n (l : list A) :
  Sorted R l → Sorted R (take n l).
Proof.
  intros Hl. revert n. induction Hl as [|x l Hl IH Hx]; intros [|n]; simpl;
    try constructor; [done|].
  destruct Hx; destruct n; simpl; by constructor.
Qed.

Lemma nearest_Sorted es n_results q :
  Sorted hit_le (Collection.nearest dist dleb es n_results q).
Proof. apply Sorted_take, sort_by_Sorted. Qed.

Lemma nearest_length es n_results q :
  length (Collection.nearest dist dleb es n_results q)
    = Z.to_nat n_results `min` Collection.count es.
Proof.
  unfold Collection.nearest, Collection.count.
  rewrite length_take.
  by rewrite (Permutation_length (sort_by_Permutation _)), length_fmap.
Qed.

Lemma nearest_all es n_results q :
  (Collection.count es ≤ Z.to_nat n_results)%nat →
  fst <$> Collection.nearest dist dleb es n_results q ≡ₚ es.
Proof.
  intros Hn. unfold Collection.nearest.
  rewrite take_ge.
  - rewrite sort_by_Permutation.
    rewrite <- list_fmap_compose. simpl. by rewrite list_fmap_id.
  - by rewrite (Permutation_length (sort_by_Permutation _)), length_fmap.
Qed.

(** Each hit is an entry of the collection with its distance to the
    query embedding. *)
Lemma nearest_distance es n_results q h :
  h ∈ Collection.nearest dist dleb es n_results q →
  fst h ∈ es ∧ snd h = dist (entry_embedding (fst h)) q.
Proof.
  unfold Collection.nearest. intros Hh.
  apply (subseteq_take (Z.to_nat n_results)) in Hh.
  rewrite sort_by_Permutation in Hh.
  by apply list_elem_of_fmap in Hh as (e & -> & He).
Qed.
End nearest_facts.

(** ** [SimpleRAG.search_documents] *)

Section search_documents_facts.
Context {Emb D : Type}.
Variable dist : Emb → Emb → D.
Variable dleb : D → D → bool.
Variable embedding_model : string.
Variable embeddings_create : string → string → result Emb.

(** The collection's answer for one query embedding. *)
Let response (hits : list (entry Emb * D)) : query_response D :=
  {| r_documents := [(λ h, entry_text (fst h)) <$> hits];
     r_metadatas := [(λ h, entry_metadata (fst h)) <$> hits];
     r_distances := [snd <$> hits];
     r_ids := [(λ h, entry_id (fst h)) <$> hits] |}.

(** The formatting loop reads the four lists in step. *)
Lemma format_loop_hits hits (w : world Emb) : ∀ tl pre acc,
  hits = pre ++ tl →
  SimpleRAG.format_loop (response hits) (seq (length pre) (length tl)) acc w
    = (Ok (acc ++ (result_of_hit <$> tl)), w).
Proof.
  induction tl as [|h tl IH]; intros pre acc Hhits; simpl.
  - by rewrite app_nil_r.
  - unfold SimpleRAG.getitem2, getitem, bind, ret. simpl.
    rewrite !list_lookup_fmap, Hhits, list_lookup_middle by done. simpl.
    rewrite <- Hhits.
    specialize (IH (pre ++ [h]) (acc ++ [result_of_hit h])).
    rewrite length_app, Nat.add_1_r in IH.
    unfold result_of_hit at 1 in IH.
    rewrite IH by (by rewrite <- app_assoc).
    by rewrite <- app_assoc.
Qed.

(** [search_documents] when the query is embedded and [n_results] is
    positive: one embedding call, one [query] call, and the hits of the
    collection in its order. *)
Lemma search_documents_ok query n_results v (w : world Emb) :
  (0 < n_results)%Z →
  embeddings_create embedding_model query = Ok v →
  SimpleRAG.search_documents dist dleb embedding_model embeddings_create
    query n_results w =
  (Ok (result_of_hit <$> Collection.nearest dist dleb (collection w) n_results v),
   {| collection := collection w;
      trace := trace w ++ [EmbeddingsCreate embedding_model query;
                           CollectionQuery [v] n_results] |}).
Proof.
  intros Hk Hv. unfold SimpleRAG.search_documents, log_and_reraise.
  unfold bind at 1.
  rewrite (create_embedding_ok embedding_model embeddings_create _ _ _ Hv).
  unfold bind at 1. unfold SimpleRAG.collection_query.
  unfold bind at 1. unfold emit at 1. rewrite decide_True by done. simpl.
  unfold bind at 1. unfold getitem, ret. simpl.
  rewrite length_fmap.
  pose proof (format_loop_hits
                (Collection.nearest dist dleb (collection w) n_results v)
                {| collection := collection w;
                   trace := (trace w ++ [EmbeddingsCreate embedding_model query])
                              ++ [CollectionQuery [v] n_results] |}
                (Collection.nearest dist dleb (collection w) n_results v)
                [] [] eq_refl) as Hloop.
  simpl in Hloop. unfold response in Hloop.
  change (Collection.query dist dleb (collection w) [v] n_results)
    with (response (Collection.nearest dist dleb (collection w) n_results v)).
  unfold response. rewrite Hloop.
  by rewrite <- app_assoc.
Qed.

(** [search_documents] when the query is embedded and [n_results] is not
    positive: the collection's [query] is called and raises [TypeError],
    which is logged and raised again. *)
Lemma search_documents_query_raise query n_results v (w : world Emb) :
  (n_results ≤ 0)%Z →
  embeddings_create embedding_model query = Ok v →
  SimpleRAG.search_documents dist dleb embedding_model embeddings_create
    query n_results w =
  (Raise (TypeError (SimpleRAG.n_results_message n_results)),
   {| collection := collection w;
      trace := trace w ++
        [EmbeddingsCreate embedding_model query;
         CollectionQuery [v] n_results;
         LogError ("Error searching documents: "
                     +:+ SimpleRAG.n_results_message n_results)] |}).
Proof.
  intros Hk Hv. unfold SimpleRAG.search_documents, log_and_reraise.
  unfold bind at 1.
  rewrite (create_embedding_ok embedding_model embeddings_create _ _ _ Hv).
  unfold bind at 1. unfold SimpleRAG.collection_query.
  unfold bind at 1. unfold emit at 1. rewrite decide_False by lia.
  unfold raise, bind, emit. simpl. by rewrite <- !app_assoc.
Qed.

(** [search_documents] when the embedding call raises: the exception is
    logged twice and raised again, the collection is not called. *)
Lemma search_documents_raise query n_results e (w : world Emb) :
  embeddings_create embedding_model query = Raise e →
  SimpleRAG.search_documents dist dleb embedding_model embeddings_create
    query n_results w =
  (Raise e,
   {| collection := collection w;
      trace := trace w ++
        [EmbeddingsCreate embedding_model query;
         LogError ("Error creating embedding: " +:+ str_exn e);
         LogError ("Error searching documents: " +:+ str_exn e)] |}).
Proof.
  intros He. unfold SimpleRAG.search_documents, log_and_reraise.
  unfold bind at 1.
  rewrite (create_embedding_raise embedding_model embeddings_create _ _ _ He).
  unfold bind, emit, raise. simpl. by rewrite <- app_assoc.
Qed.
End search_documents_facts.

(** C3: for every collection state, every query that the embedding call
    accepts and every [n_results > 0], [search_documents] returns, without
    raising and without changing the collection, at most [n_results] results
    in non-decreasing order of distance, each an entry of the collection with
    its distance to the query; when the collection holds fewer than
    [n_results] entries it returns all of them, and on an empty collection it
    returns the empty list. The order on distances is total. *)
Theorem search_documents_top_k {Emb D} (dist : Emb → Emb → D)
    (dleb : D → D → bool) (embedding_model : string)
    (embeddings_create : string → string → result Emb)
    (query : string) (n_results : Z) (w : world Emb) (v : Emb) :
  (∀ a b, dleb a b = true ∨ dleb b a = true) →
  (0 < n_results)%Z →
  embeddings_create embedding_model query = Ok v →
  ∃ rs w',
    SimpleRAG.search_documents dist dleb embedding_model embeddings_create
      query n_results w = (Ok rs, w') ∧
    collection w' = collection w ∧
    (Z.of_nat (length rs) ≤ n_results)%Z ∧
    Sorted (distance_le dleb) rs ∧
    (∀ r, r ∈ rs →
       ∃ e, e ∈ collection w ∧
            r = result_of_hit (e, dist (entry_embedding e) v)) ∧
    ((Z.of_nat (Collection.count (collection w)) < n_results)%Z →
       length rs = Collection.count (collection w) ∧
       sr_id <$> rs ≡ₚ entry_id <$> collection w) ∧
    (Collection.count (collection w) = 0%nat → rs = []).
Proof.
  intros Htotal Hk Hv.
  eexists _, _. split; [by apply search_documents_ok|]. simpl.
  split; [done|].
  pose proof (nearest_length dist dleb (collection w) n_results v) as Hlen.
  split; [rewrite length_fmap; lia|].
  split.
  { eapply Sorted_fmap; [|by apply nearest_Sorted]. by intros x y Hxy. }
  split.
  { intros r Hr. apply list_elem_of_fmap in Hr as (h & -> & Hh).
    apply nearest_distance in Hh as [He Hd].
    exists (fst h). split; [done|]. rewrite <- Hd. by destruct h. }
  split.
  - intros Hcount. split; [rewrite length_fmap; lia|].
    rewrite <- (nearest_all dist dleb (collection w) n_results v) at 2 by lia.
    by rewrite <- !list_fmap_compose.
  - intros Hcount. apply nil_length_inv. rewrite length_fmap. lia.
Qed.

Lemma search_documents_top_k_witness :
  ∃ rs w',
    SimpleRAG.search_documents Sample.dist Z.leb "text-embedding-3-small"
      Sample.embeddings_create "what" 2 Sample.world_abc = (Ok rs, w') ∧
    collection w' = collection Sample.world_abc ∧
    (Z.of_nat (length rs) ≤ 2)%Z ∧
    Sorted (distance_le Z.leb) rs ∧
    (∀ r, r ∈ rs →
       ∃ e, e ∈ collection Sample.world_abc ∧
            r = result_of_hit (e, Sample.dist (entry_embedding e) 4%Z)) ∧
    ((Z.of_nat (Collection.count (collection Sample.world_abc)) < 2)%Z →
       length rs = Collection.count (collection Sample.world_abc) ∧
       sr_id <$> rs ≡ₚ entry_id <$> collection Sample.world_abc) ∧
    (Collection.count (collection Sample.world_abc) = 0%nat → rs = []).
Proof.
  apply (search_documents_top_k Sample.dist Z.leb "text-embedding-3-small"
           Sample.embeddings_create "what" 2 Sample.world_abc 4%Z).
  - intros a b. destruct (Z.leb a b) eqn:Hab; [by left|right].
    apply Z.leb_le. apply Z.leb_gt in Hab. lia.
  - lia.
  - reflexivity.
Defined.

(** The end-to-end scenario: after the three documents with ids a, b and c
    were added to the empty collection, a search for two results returns two,
    a search for ten returns the three, entries at the same distance come
    in insertion order, and a search for no result raises. *)
Example search_documents_scenario :
  let w :=
    snd (SimpleRAG.add_documents "text-embedding-3-small"
           Sample.embeddings_create Sample.chroma_add Sample.docs_abc
           Sample.empty_world) in
  let found query n_results :=
    match fst (SimpleRAG.search_documents Sample.dist Z.leb
                 "text-embedding-3-small" Sample.embeddings_create
                 query n_results w) with
    | Ok rs => Some ((λ r, (sr_id r, sr_distance r)) <$> rs)
    | Raise _ => None
    end in
  collection w = collection Sample.world_abc ∧
  found "what" 2%Z = Some [("a", 1%Z); ("b", 2%Z)] ∧
  found "what" 10%Z = Some [("a", 1%Z); ("b", 2%Z); ("c", 5%Z)] ∧
  found "what is" 10%Z = Some [("a", 2%Z); ("c", 2%Z); ("b", 5%Z)] ∧
  found "what" 0%Z = None.
Proof. repeat split; reflexivity. Qed.

(** ** Occurrences of a text in a string *)

Lemma string_app_assoc (a b c : string) : (a +:+ b) +:+ c = a +:+ b +:+ c.
Proof.
  induction a as [|x a IH]; [done|].
  change (String x ((a +:+ b) +:+ c) = String x (a +:+ b +:+ c)).
  by rewrite IH.
Qed.

Lemma strip_prefix_app (p s : string) : strip_prefix p (p +:+ s) = Some s.
Proof.
  induction p as [|a p IH]; simpl; [done|].
  by rewrite decide_True.
Qed.

Lemma tails_after_unfold (q s : string) :
  tails_after q s =
    match strip_prefix q s with Some r => [r] | None => [] end ++
    match s with
    | "" => []
    | String _ s' => tails_after q s'
    end.
Proof. by destruct s. Qed.

Lemma tails_after_complete (a q b : string) :
  b ∈ tails_after q (a +:+ q +:+ b).
Proof.
  induction a as [|x a IH]; rewrite tails_after_unfold.
  - change ("" +:+ q +:+ b) with (q +:+ b).
    rewrite strip_prefix_app. apply elem_of_app. left. apply list_elem_of_here.
  - change (String x a +:+ q +:+ b) with (String x (a +:+ q +:+ b)).
    apply elem_of_app. by right.
Qed.

(** ** [generate_response] and [query] *)

Section query_facts.
Context {Emb D : Type}.
Variable dist : Emb → Emb → D.
Variable dleb : D → D → bool.
Variables embedding_model chat_model : string.
Variable embeddings_create : string → string → result Emb.
Variable chat_completions_create :
  string → list (string * string) → result string.

Let search_documents :=
  SimpleRAG.search_documents dist dleb embedding_model embeddings_create.
Let generate_response :=
  SimpleRAG.generate_response (Emb:=Emb) (D:=D) chat_model
    chat_completions_create.
Let query :=
  SimpleRAG.query dist dleb embedding_model chat_model embeddings_create
    chat_completions_create.

(** The one chat call of [generate_response]. *)
Let chat_call (question : string) (docs : list (search_result D))
    : event Emb :=
  ChatCompletionsCreate chat_model
    (SimpleRAG.messages_of (prompt_of question (context_of docs))).

Lemma generate_response_ok question docs a (w : world Emb) :
  chat_completions_create chat_model
    (SimpleRAG.messages_of (prompt_of question (context_of docs))) = Ok a →
  generate_response question docs w =
    (Ok a, {| collection := collection w;
              trace := trace w ++ [chat_call question docs] |}).
Proof.
  intros Ha. subst generate_response chat_call.
  unfold SimpleRAG.generate_response, log_and_reraise, bind, emit, lift.
  simpl. by rewrite Ha.
Qed.

Lemma generate_response_raise question docs e (w : world Emb) :
  chat_completions_create chat_model
    (SimpleRAG.messages_of (prompt_of question (context_of docs))) = Raise e →
  generate_response question docs w =
    (Raise e,
     {| collection := collection w;
        trace := trace w ++
          [chat_call question docs;
           LogError ("Error generating response: " +:+ str_exn e)] |}).
Proof.
  intros He. subst generate_response chat_call.
  unfold SimpleRAG.generate_response, log_and_reraise, bind, emit, lift, raise.
  simpl. rewrite He. simpl. by rewrite <- app_assoc.
Qed.

Lemma query_search_raise question n_results e (w w1 : world Emb) :
  search_documents question n_results w = (Raise e, w1) →
  query question n_results w =
    (Raise e,
     {| collection := collection w1;
        trace := trace w1
          ++ [LogError ("Error in RAG query: " +:+ str_exn e)] |}).
Proof.
  subst search_documents query. intros Hs.
  unfold SimpleRAG.query, log_and_reraise. unfold bind at 1.
  by rewrite Hs.
Qed.

Lemma query_generate_raise question n_results docs e (w w1 : world Emb) :
  search_documents question n_results w = (Ok docs, w1) →
  chat_completions_create chat_model
    (SimpleRAG.messages_of (prompt_of question (context_of docs))) = Raise e →
  query question n_results w =
    (Raise e,
     {| collection := collection w1;
        trace := trace w1 ++
          [chat_call question docs;
           LogError ("Error generating response: " +:+ str_exn e);
           LogError ("Error in RAG query: " +:+ str_exn e)] |}).
Proof.
  subst search_documents query. intros Hs He.
  unfold SimpleRAG.query, log_and_reraise. unfold bind at 1.
  rewrite Hs. unfold bind at 1. fold generate_response.
  rewrite (generate_response_raise _ _ _ _ He).
  unfold bind, emit, raise. simpl. by rewrite <- app_assoc.
Qed.

Lemma query_ok question n_results docs a (w w1 : world Emb) :
  search_documents question n_results w = (Ok docs, w1) →
  chat_completions_create chat_model
    (SimpleRAG.messages_of (prompt_of question (context_of docs))) = Ok a →
  query question n_results w =
    (Ok {| qr_question := question; qr_answer := a; qr_sources := docs |},
     {| collection := collection w1;
        trace := trace w1 ++ [chat_call question docs] |}).
Proof.
  subst search_documents query. intros Hs Ha.
  unfold SimpleRAG.query, log_and_reraise. unfold bind at 1.
  rewrite Hs. unfold bind at 1. fold generate_response.
  by rewrite (generate_response_ok _ _ _ _ Ha).
Qed.

(** Every record [query] returns comes from a search that returned and a
    chat call that returned. *)
Lemma query_ok_inv question n_results r (w w' : world Emb) :
  query question n_results w = (Ok r, w') →
  ∃ docs w1,
    search_documents question n_results w = (Ok docs, w1) ∧
    chat_completions_create chat_model
      (SimpleRAG.messages_of (prompt_of question (context_of docs)))
      = Ok (qr_answer r) ∧
    qr_question r = question ∧ qr_sources r = docs.
Proof.
  intros Hq.
  destruct (search_documents question n_results w) as [[docs|e] w1] eqn:Hs.
  - destruct (chat_completions_create chat_model
                (SimpleRAG.messages_of (prompt_of question (context_of docs))))
      as [a|e] eqn:Ha.
    + rewrite (query_ok _ _ _ _ _ _ Hs Ha) in Hq. injection Hq as <- <-.
      by exists docs, w1.
    + by rewrite (query_generate_raise _ _ _ _ _ _ Hs Ha) in Hq.
  - by rewrite (query_search_raise _ _ _ _ _ Hs) in Hq.
Qed.
End query_facts.

(** ** [CoreRAG.query] *)

Section core_query_facts.
Context {Emb D : Type}.
Variables embedding_model chat_model : string.
Variable VectorStore_search :
  string → Z → string → M Emb (list (search_result D)).
Variable LLMClient_chat : string → string → M Emb string.

Let query :=
  CoreRAG.query embedding_model chat_model VectorStore_search LLMClient_chat.

Lemma core_query_search_raise question n_results e (w w1 : world Emb) :
  VectorStore_search question n_results embedding_model w = (Raise e, w1) →
  query question n_results w = (Raise e, w1).
Proof.
  subst query. intros Hs.
  unfold CoreRAG.query, CoreRAG.search_documents. unfold bind at 1.
  by rewrite Hs.
Qed.

Lemma core_query_chat_raise question n_results docs e (w w1 w2 : world Emb) :
  VectorStore_search question n_results embedding_model w = (Ok docs, w1) →
  LLMClient_chat (prompt_of question (context_of docs)) chat_model w1
    = (Raise e, w2) →
  query question n_results w = (Raise e, w2).
Proof.
  subst query. intros Hs He.
  unfold CoreRAG.query, CoreRAG.search_documents, CoreRAG.generate_response.
  unfold bind at 1. rewrite Hs. unfold bind at 1. by rewrite He.
Qed.

Lemma core_query_ok question n_results docs a (w w1 w2 : world Emb) :
  VectorStore_search question n_results embedding_model w = (Ok docs, w1) →
  LLMClient_chat (prompt_of question (context_of docs)) chat_model w1
    = (Ok a, w2) →
  query question n_results w =
    (Ok {| qr_question := question; qr_answer := a; qr_sources := docs |}, w2).
Proof.
  subst query. intros Hs Ha.
  unfold CoreRAG.query, CoreRAG.search_documents, CoreRAG.generate_response.
  unfold bind at 1. rewrite Hs. unfold bind at 1. by rewrite Ha.
Qed.

Lemma core_query_ok_inv question n_results r (w w' : world Emb) :
  query question n_results w = (Ok r, w') →
  ∃ docs w1,
    VectorStore_search question n_results embedding_model w = (Ok docs, w1) ∧
    LLMClient_chat (prompt_of question (context_of docs)) chat_model w1
      = (Ok (qr_answer r), w') ∧
    qr_question r = question ∧ qr_sources r = docs.
Proof.
  intros Hq.
  destruct (VectorStore_search question n_results embedding_model w)
    as [[docs|e] w1] eqn:Hs.
  - destruct (LLMClient_chat (prompt_of question (context_of docs))
                chat_model w1) as [[a|e] w2] eqn:Ha.
    + rewrite (core_query_ok _ _ _ _ _ _ _ Hs Ha) in Hq.
      injection Hq as <- <-. by exists docs, w1.
    + by rewrite (core_query_chat_raise _ _ _ _ _ _ _ Hs Ha) in Hq.
  - by rewrite (core_query_search_raise _ _ _ _ _ Hs) in Hq.
Qed.
End core_query_facts.

(** C4: for every question and every [n_results], a record returned by
    [query] (of [SimpleRAG] and of [CoreRAG]) has the input question under
    ['question'], the list returned by the search, in its order, under
    ['sources'], and under ['answer'] the output of the chat collaborator on
    the prompt that holds the texts of the retrieved chunks in the order
    returned, joined by a blank line; and [query] returns such a record
    whenever the search and the chat collaborator return. *)
Theorem query_record {Emb D} (dist : Emb → Emb → D) (dleb : D → D → bool)
    (embedding_model chat_model : string)
    (embeddings_create : string → string → result Emb)
    (chat_completions_create : string → list (string * string) → result string)
    (VectorStore_search : string → Z → string → M Emb (list (search_result D)))
    (LLMClient_chat : string → string → M Emb string)
    (question : string) (n_results : Z) (w : world Emb) :
  let prompt (docs : list (search_result D)) :=
    "Based on the following context, please answer the question."
      +:+ nl +:+ nl +:+ "Context:" +:+ nl
      +:+ String.concat (nl +:+ nl) (sr_text <$> docs)
      +:+ nl +:+ nl +:+ "Question: " +:+ question
      +:+ nl +:+ nl +:+ "Answer:" in
  let messages docs :=
    [("system", SimpleRAG.system_message); ("user", prompt docs)] in
  let simple_search :=
    SimpleRAG.search_documents dist dleb embedding_model embeddings_create in
  let simple_query :=
    SimpleRAG.query dist dleb embedding_model chat_model embeddings_create
      chat_completions_create in
  let core_query :=
    CoreRAG.query embedding_model chat_model VectorStore_search
      LLMClient_chat in
  (∀ docs w1 a,
     simple_search question n_results w = (Ok docs, w1) →
     chat_completions_create chat_model (messages docs) = Ok a →
     simple_query question n_results w =
       (Ok {| qr_question := question; qr_answer := a; qr_sources := docs |},
        {| collection := collection w1;
           trace := trace w1
             ++ [ChatCompletionsCreate chat_model (messages docs)] |})) ∧
  (∀ r w',
     simple_query question n_results w = (Ok r, w') →
     qr_question r = question ∧
     ∃ w1,
       simple_search question n_results w = (Ok (qr_sources r), w1) ∧
       chat_completions_create chat_model (messages (qr_sources r))
         = Ok (qr_answer r)) ∧
  (∀ docs w1 a w2,
     VectorStore_search question n_results embedding_model w = (Ok docs, w1) →
     LLMClient_chat (prompt docs) chat_model w1 = (Ok a, w2) →
     core_query question n_results w =
       (Ok {| qr_question := question; qr_answer := a; qr_sources := docs |},
        w2)) ∧
  (∀ r w',
     core_query question n_results w = (Ok r, w') →
     qr_question r = question ∧
     ∃ w1,
       VectorStore_search question n_results embedding_model w
         = (Ok (qr_sources r), w1) ∧
       LLMClient_chat (prompt (qr_sources r)) chat_model w1
         = (Ok (qr_answer r), w')).
Proof.
  intros prompt messages simple_search simple_query core_query.
  split; [|split; [|split]].
  - intros docs w1 a Hs Ha. by apply query_ok.
  - intros r w' Hq.
    apply query_ok_inv in Hq as (docs & w1 & Hs & Ha & Hquestion & <-).
    split; [done|]. by exists w1.
  - intros docs w1 a w2 Hs Ha. by eapply core_query_ok.
  - intros r w' Hq.
    apply core_query_ok_inv in Hq as (docs & w1 & Hs & Ha & Hquestion & <-).
    split; [done|]. by exists w1.
Qed.

Lemma query_record_witness :
  ∃ w',
    SimpleRAG.query Sample.dist Z.leb "text-embedding-3-small" "gpt-4o-mini"
      Sample.embeddings_create Sample.chat_completions_create
      Sample.question 2 Sample.world_abc =
    (Ok {| qr_question := Sample.question; qr_answer := "119";
           qr_sources := Sample.hits |}, w') ∧
    count_events is_chat_call (trace w') = 1.
Proof.
  eexists. split.
  - apply (query_record Sample.dist Z.leb "text-embedding-3-small"
             "gpt-4o-mini" Sample.embeddings_create
             Sample.chat_completions_create Sample.VectorStore_search
             Sample.LLMClient_chat Sample.question 2 Sample.world_abc).
    + reflexivity.
    + reflexivity.
  - reflexivity.
Defined.

(** C6, as stated, fails: in the prompt that [generate_response] hands to
    the chat collaborator for the sample question, the question is followed
    only by a blank line and the cue [Answer:], so no instruction about the
    context follows it. *)
Lemma prompt_structure_counterexample :
  ∃ prompt,
    trace (snd (SimpleRAG.generate_response "gpt-4o-mini"
                  Sample.chat_completions_create Sample.question Sample.hits
                  Sample.empty_world))
      = [ChatCompletionsCreate "gpt-4o-mini"
           [("system", SimpleRAG.system_message); ("user", prompt)]] ∧
    tails_after Sample.question prompt = [nl +:+ nl +:+ "Answer:"] ∧
    ¬ spec_prompt_structure prompt (context_of Sample.hits) Sample.question.
Proof.
  eexists. split; [reflexivity|].
  assert (tails_after Sample.question
            (prompt_of Sample.question (context_of Sample.hits))
          = [nl +:+ nl +:+ "Answer:"]) as Htails by (vm_compute; reflexivity).
  split; [exact Htails|].
  intros (pre & mid & instruction & Hprompt & Hinstruction).
  pose proof (tails_after_complete (pre +:+ context_of Sample.hits +:+ mid)
                Sample.question instruction) as Hin.
  rewrite !string_app_assoc, <- Hprompt, Htails in Hin.
  apply list_elem_of_singleton in Hin as ->.
  vm_compute in Hinstruction. discriminate.
Qed.

(** C6, amended: the prompt [generate_response] hands to the chat
    collaborator is the fixed opening line "Based on the following context,
    please answer the question.", a blank line, the line "Context:", the
    texts of the context documents joined by blank lines, a blank line,
    "Question: " with the literal question, a blank line and the cue
    "Answer:". [SimpleRAG] makes one chat call with this prompt as the user
    message, behind a system message that tells the model to answer from the
    provided context and to say so clearly when the context holds nothing
    relevant; [CoreRAG] passes the prompt alone to its client. *)
Theorem generate_response_prompt {Emb D} (chat_model : string)
    (chat_completions_create : string → list (string * string) → result string)
    (LLMClient_chat : string → string → M Emb string)
    (query : string) (context_docs : list (search_result D)) (w : world Emb) :
  let prompt :=
    "Based on the following context, please answer the question."
      +:+ nl +:+ nl +:+ "Context:" +:+ nl
      +:+ String.concat (nl +:+ nl) (sr_text <$> context_docs)
      +:+ nl +:+ nl +:+ "Question: " +:+ query
      +:+ nl +:+ nl +:+ "Answer:" in
  let messages :=
    [("system",
      "You are a helpful assistant. Answer questions based on the provided context. If the context doesn't contain relevant information, say so clearly.");
     ("user", prompt)] in
  (∃ evs,
     SimpleRAG.generate_response chat_model chat_completions_create query
       context_docs w =
     (chat_completions_create chat_model messages,
      {| collection := collection w;
         trace := trace w ++ ChatCompletionsCreate chat_model messages :: evs |})
     ∧ count_events is_chat_call evs = 0%nat) ∧
  CoreRAG.generate_response chat_model LLMClient_chat query context_docs
    = LLMClient_chat prompt chat_model.
Proof.
  intros prompt messages. split; [|reflexivity].
  destruct (chat_completions_create chat_model messages) as [a|e] eqn:Hchat.
  - exists []. split; [|done].
    by apply (generate_response_ok chat_model chat_completions_create).
  - exists [LogError ("Error generating response: " +:+ str_exn e)].
    split; [|done].
    by apply (generate_response_raise chat_model chat_completions_create).
Qed.

(** C7: a failure of the search step or of the chat collaborator inside
    [query] (of [SimpleRAG] and of [CoreRAG]) leaves [query] raising the same
    exception. [SimpleRAG] only adds log lines: after a failed search no chat
    call is made, after a failed chat call the trace holds that one call and
    no second one, and a failed embedding of the question is called once. The
    outcome is the exception alone: the search results computed before a
    failed chat call are not part of it. *)
Theorem query_failure_propagates {Emb D} (dist : Emb → Emb → D)
    (dleb : D → D → bool) (embedding_model chat_model : string)
    (embeddings_create : string → string → result Emb)
    (chat_completions_create : string → list (string * string) → result string)
    (VectorStore_search : string → Z → string → M Emb (list (search_result D)))
    (LLMClient_chat : string → string → M Emb string)
    (question : string) (n_results : Z) (w : world Emb) (e : exn) :
  let simple_search :=
    SimpleRAG.search_documents dist dleb embedding_model embeddings_create in
  let simple_query :=
    SimpleRAG.query dist dleb embedding_model chat_model embeddings_create
      chat_completions_create in
  let core_query :=
    CoreRAG.query embedding_model chat_model VectorStore_search
      LLMClient_chat in
  let chat_call docs :=
    ChatCompletionsCreate chat_model
      (SimpleRAG.messages_of (prompt_of question (context_of docs))) in
  (∀ w1,
     simple_search question n_results w = (Raise e, w1) →
     simple_query question n_results w =
       (Raise e,
        {| collection := collection w1;
           trace := trace w1
             ++ [LogError ("Error in RAG query: " +:+ str_exn e)] |})) ∧
  (embeddings_create embedding_model question = Raise e →
     simple_query question n_results w =
       (Raise e,
        {| collection := collection w;
           trace := trace w ++
             [EmbeddingsCreate embedding_model question;
              LogError ("Error creating embedding: " +:+ str_exn e);
              LogError ("Error searching documents: " +:+ str_exn e);
              LogError ("Error in RAG query: " +:+ str_exn e)] |})) ∧
  (∀ docs w1,
     simple_search question n_results w = (Ok docs, w1) →
     chat_completions_create chat_model
       (SimpleRAG.messages_of (prompt_of question (context_of docs)))
       = Raise e →
     simple_query question n_results w =
       (Raise e,
        {| collection := collection w1;
           trace := trace w1 ++
             [chat_call docs;
              LogError ("Error generating response: " +:+ str_exn e);
              LogError ("Error in RAG query: " +:+ str_exn e)] |})) ∧
  (∀ w1,
     VectorStore_search question n_results embedding_model w = (Raise e, w1) →
     core_query question n_results w = (Raise e, w1)) ∧
  (∀ docs w1 w2,
     VectorStore_search question n_results embedding_model w = (Ok docs, w1) →
     LLMClient_chat (prompt_of question (context_of docs)) chat_model w1
       = (Raise e, w2) →
     core_query question n_results w = (Raise e, w2)).
Proof.
  intros simple_search simple_query core_query chat_call.
  split; [|split; [|split; [|split]]].
  - intros w1 Hs. by apply query_search_raise.
  - intros He. subst simple_query.
    rewrite (query_search_raise dist dleb embedding_model chat_model
               embeddings_create chat_completions_create question n_results e
               w _ (search_documents_raise dist dleb embedding_model
                      embeddings_create question n_results e w He)).
    simpl. by rewrite <- app_assoc.
  - intros docs w1 Hs He. by apply query_generate_raise.
  - intros w1 Hs. by apply core_query_search_raise.
  - intros docs w1 w2 Hs He. by eapply core_query_chat_raise.
Qed.

Lemma query_failure_propagates_witness :
  let w1 :=
    snd (SimpleRAG.search_documents Sample.dist Z.leb "text-embedding-3-small"
           Sample.embeddings_create Sample.question 2 Sample.world_abc) in
  SimpleRAG.query Sample.dist Z.leb "text-embedding-3-small" "offline"
    Sample.embeddings_create Sample.chat_completions_create
    Sample.question 2 Sample.world_abc =
  (Raise (CollaboratorError "unreachable"),
   {| collection := collection w1;
      trace := trace w1 ++
        [ChatCompletionsCreate "offline"
           (SimpleRAG.messages_of
              (prompt_of Sample.question (context_of Sample.hits)));
         LogError "Error generating response: unreachable";
         LogError "Error in RAG query: unreachable"] |})
  ∧
  SimpleRAG.query Sample.dist Z.leb "text-embedding-3-small" "offline"
    Sample.embeddings_create Sample.chat_completions_create
    "" 2 Sample.world_abc =
  (Raise (CollaboratorError "empty input"),
   {| collection := collection Sample.world_abc;
      trace := trace Sample.world_abc ++
        [EmbeddingsCreate "text-embedding-3-small" "";
         LogError "Error creating embedding: empty input";
         LogError "Error searching documents: empty input";
         LogError "Error in RAG query: empty input"] |}).
Proof.
  intros w1. split.
  - apply (query_failure_propagates Sample.dist Z.leb "text-embedding-3-small"
             "offline" Sample.embeddings_create Sample.chat_completions_create
             Sample.VectorStore_search Sample.LLMClient_chat Sample.question 2
             Sample.world_abc (CollaboratorError "unreachable")).
    + reflexivity.
    + reflexivity.
  - apply (query_failure_propagates Sample.dist Z.leb "text-embedding-3-small"
             "offline" Sample.embeddings_create Sample.chat_completions_create
             Sample.VectorStore_search Sample.LLMClient_chat "" 2
             Sample.world_abc (CollaboratorError "empty input")).
    reflexivity.
Defined.

(** * Further properties *)

(** ** Identifiers of chunk documents *)

Lemma chars_app (a b : string) : chars (a +:+ b) = chars a ++ chars b.
Proof.
  induction a as [|c a IH]; [done|].
  change (chars (String c (a +:+ b)) = c :: chars a ++ chars b).
  unfold chars in *. simpl. by rewrite IH.
Qed.

Lemma pretty_N_go_no_underscore (x : N) : ∀ s,
  "_"%char ∉ chars s → "_"%char ∉ chars (pretty_N_go x s).
Proof.
  induction (N.lt_wf_0 x) as [x _ IH]; intros s Hs.
  assert (x = 0 ∨ 0 < x)%N as [->|Hx] by lia.
  - by rewrite pretty_N_go_0.
  - rewrite pretty_N_go_step by done. apply IH; [by apply N.div_lt|].
    unfold chars. simpl. apply not_elem_of_cons. split; [|done].
    unfold pretty_N_char. by repeat case_match.
Qed.

Lemma pretty_nat_no_underscore (i : nat) : "_"%char ∉ chars (pretty i).
Proof.
  unfold pretty, pretty_nat, pretty, pretty_N. case_decide.
  - unfold chars. simpl. by intros [?|?%elem_of_nil]%elem_of_cons.
  - apply pretty_N_go_no_underscore. unfold chars. simpl. apply not_elem_of_nil.
Qed.

(** An identifier is cut at its last underscore. *)
Lemma id_split_inj (s1 : string) : ∀ s2 d1 d2,
  "_"%char ∉ chars d1 → "_"%char ∉ chars d2 →
  s1 +:+ "_" +:+ d1 = s2 +:+ "_" +:+ d2 → s1 = s2 ∧ d1 = d2.
Proof.
  assert (∀ d, "_" +:+ d = String "_" d) as Hcons by done.
  induction s1 as [|a s1 IH]; intros [|b s2] d1 d2 Hd1 Hd2 Heq.
  - change (String "_" d1 = String "_" d2) in Heq. by injection Heq as ->.
  - exfalso. change (String "_" d1 = String b (s2 +:+ "_" +:+ d2)) in Heq.
    injection Heq as Hhead Htail. apply Hd1.
    rewrite Htail, chars_app.
    apply elem_of_app. right. rewrite Hcons. apply list_elem_of_here.
  - exfalso. change (String a (s1 +:+ "_" +:+ d1) = String "_" d2) in Heq.
    injection Heq as Hhead Htail. apply Hd2.
    rewrite <- Htail, chars_app.
    apply elem_of_app. right. rewrite Hcons. apply list_elem_of_here.
  - change (String a (s1 +:+ "_" +:+ d1) = String b (s2 +:+ "_" +:+ d2))
      in Heq.
    injection Heq as Hhead Htail. subst b.
    by apply IH in Htail as [-> ->].
Qed.

Lemma chunk_document_id_inj metadata1 metadata2 n1 n2 i j chunk1 chunk2 :
  doc_id (chunk_document metadata1 n1 i chunk1)
    = doc_id (chunk_document metadata2 n2 j chunk2) →
  str_scalar (default (SStr "doc") (metadata1 !! "source"))
    = str_scalar (default (SStr "doc") (metadata2 !! "source")) ∧
  i = j.
Proof.
  unfold chunk_document. simpl. intros [= Heq].
  apply id_split_inj in Heq as [Hsource Hindex];
    [|apply pretty_nat_no_underscore..].
  split; [done|]. by apply (inj pretty).
Qed.

Lemma imap_chunk_document_ids metadata (chunks : list string) :
  doc_id <$> imap (chunk_document metadata (length chunks)) chunks =
  (λ i, Some (str_scalar (default (SStr "doc") (metadata !! "source"))
                +:+ "_" +:+ pretty i)) <$> seq 0 (length chunks).
Proof.
  apply list_eq; intros i.
  rewrite !list_lookup_fmap, list_lookup_imap.
  destruct (chunks !! i) as [chunk|] eqn:Hchunk; simpl.
  - by rewrite lookup_seq_lt by (eapply lookup_lt_Some; eauto).
  - by rewrite lookup_seq_ge by (by apply lookup_ge_None).
Qed.

(** X1: the identifiers of the documents of one [chunk_text] call (of
    [DocProcessor] and of [DocumentProcessor]) are pairwise distinct,
    whatever the splitter returns and whatever the metadata. *)
Theorem chunk_text_ids_distinct {splitter}
    (split_text : splitter → string → list string) (s : splitter)
    (text : string) (metadata : option (gmap string scalar)) :
  NoDup (doc_id <$> DocProcessor.chunk_text splitter split_text
                      (DocProcessor.Build_t s) text metadata) ∧
  NoDup (doc_id <$> DocumentProcessor.chunk_text splitter split_text
                      (DocumentProcessor.Build_t s) text metadata).
Proof.
  assert (NoDup (doc_id <$> imap (chunk_document (default ∅ metadata)
                                    (length (split_text s text)))
                              (split_text s text))) as Hnodup.
  { rewrite imap_chunk_document_ids. apply NoDup_fmap_2; [|apply NoDup_seq].
    intros i j [= Heq].
    apply id_split_inj in Heq as [_ Hij]; [|apply pretty_nat_no_underscore..].
    by apply (inj pretty). }
  by split.
Qed.

(** X2: an identifier produced by [chunk_text] determines the source and
    the chunk index: when a document of one call and a document of another
    call (any processor, text and metadata) have the same identifier, the two
    calls had the same rendered ['source'] (["doc"] when the key is missing)
    and the two documents have the same index. Calls with different sources
    never produce a common identifier. *)
Theorem chunk_text_id_determines_source {splitter}
    (split_text : splitter → string → list string)
    (self1 self2 : DocProcessor.t splitter)
    (text1 text2 : string) (metadata1 metadata2 : option (gmap string scalar))
    (i j : nat) (d1 d2 : document) :
  DocProcessor.chunk_text splitter split_text self1 text1 metadata1 !! i
    = Some d1 →
  DocProcessor.chunk_text splitter split_text self2 text2 metadata2 !! j
    = Some d2 →
  doc_id d1 = doc_id d2 →
  str_scalar (default (SStr "doc") (default ∅ metadata1 !! "source"))
    = str_scalar (default (SStr "doc") (default ∅ metadata2 !! "source")) ∧
  i = j.
Proof.
  unfold DocProcessor.chunk_text. simpl.
  rewrite !list_lookup_imap. intros H1 H2 Hid.
  destruct (split_text _ text1 !! i) as [c1|]; [|done].
  destruct (split_text _ text2 !! j) as [c2|]; [|done].
  simpl in H1, H2. injection H1 as <-. injection H2 as <-.
  by eapply chunk_document_id_inj.
Qed.

(** ** The sample documents *)

Lemma process_texts_ids_distinct {splitter}
    (split_text : splitter → string → list string)
    (processor : DocProcessor.t splitter) (items : list (string * string)) :
  NoDup (snd <$> items) →
  NoDup (doc_id <$>
           (items ≫= (λ item, DocProcessor.process_text splitter split_text
                                processor (fst item) (snd item)))).
Proof.
  induction items as [|item items IH]; [constructor|].
  rewrite fmap_cons, bind_cons, fmap_app.
  intros [Hfresh Hsources]%NoDup_cons. apply NoDup_app. split; [|split].
  - destruct processor as [s].
    apply (chunk_text_ids_distinct split_text s).
  - intros x Hx1 Hx2.
    apply list_elem_of_fmap in Hx1 as (d1 & -> & [i Hd1]%list_elem_of_lookup).
    apply list_elem_of_fmap in Hx2 as (d2 & Hid & Hd2).
    apply list_elem_of_bind in Hd2 as (item' & [j Hd2]%list_elem_of_lookup & Hitem').
    unfold DocProcessor.process_text in Hd1, Hd2.
    destruct (chunk_text_id_determines_source split_text processor processor
                _ _ _ _ i j d1 d2 Hd1 Hd2 Hid) as [Hsource _].
    simpl in Hsource.
    rewrite !lookup_insert_ne, !lookup_singleton_eq in Hsource by done.
    simpl in Hsource. apply Hfresh. rewrite Hsource.
    apply list_elem_of_fmap. by exists item'.
  - by apply IH.
Qed.

(** X3: the documents returned by [load_sample_documents] (of
    [doc_processing.py] and of [document_utils.py]) have pairwise distinct
    identifiers, whatever the splitter returns for the three texts; every
    identifier is the source of its sample, an underscore and an index. *)
Theorem load_sample_documents_ids_distinct {splitter}
    (make : Z → Z → result splitter)
    (split_text : splitter → string → list string) (docs : list document) :
  DocProcessor_load_sample_documents splitter make split_text = Ok docs ∨
  DocumentProcessor_load_sample_documents splitter make split_text = Ok docs →
  NoDup (doc_id <$> docs) ∧
  ∀ d, d ∈ docs →
    ∃ source (i : nat),
      source ∈ ["ai_overview"; "python_overview"; "vector_db_overview"] ∧
      doc_id d = Some (source +:+ "_" +:+ pretty i).
Proof.
  intros Hdocs.
  assert (∃ s,
    docs = sample_texts ≫=
      (λ item, DocProcessor.process_text splitter split_text
                 (DocProcessor.Build_t s) (fst item) (snd item)))
    as [s ->].
  { unfold DocProcessor_load_sample_documents,
      DocumentProcessor_load_sample_documents, DocProcessor.init,
      DocumentProcessor.init in Hdocs.
    destruct (make 500%Z 50%Z) as [s|e]; [|by destruct Hdocs].
    exists s. by destruct Hdocs as [[= <-]|[= <-]]. }
  split.
  - apply process_texts_ids_distinct. unfold sample_texts. simpl.
    repeat (apply NoDup_cons; split;
            [by repeat (apply not_elem_of_cons; split; [done|]);
                apply not_elem_of_nil|]).
    constructor.
  - intros d Hd.
    apply list_elem_of_bind in Hd as (item & Hd & Hitem).
    unfold DocProcessor.process_text, DocProcessor.chunk_text in Hd.
    apply list_elem_of_lookup in Hd as [i Hd].
    rewrite list_lookup_imap in Hd.
    destruct (split_text _ _ !! i) as [chunk|]; [|done].
    injection Hd as <-. exists (snd item), i. split.
    + apply (list_elem_of_fmap_2 snd) in Hitem. exact Hitem.
    + unfold chunk_document. simpl.
      by rewrite lookup_insert_ne, lookup_singleton_eq.
Qed.

(** ** Python's text methods *)

Lemma is_linebreak_isspace (c : ascii) :
  is_linebreak c = true → isspace c = true.
Proof.
  destruct c as [[] [] [] [] [] [] [] []]; vm_compute;
    intros H; (reflexivity || discriminate).
Qed.

Lemma splitlines_from_ind
    (P : list ascii → list ascii → list (list ascii) → Prop) :
  (∀ cur, P cur [] (match cur with [] => [] | _ => [cur] end)) →
  (∀ cur c rest r,
     is_linebreak c = true → P [] rest r → P cur (c :: rest) (cur :: r)) →
  (∀ cur rest r, P [] rest r → P cur (CR :: LF :: rest) (cur :: r)) →
  (∀ cur c rest r,
     is_linebreak c = false → P (cur ++ [c]) rest r → P cur (c :: rest) r) →
  ∀ s cur, P cur s (splitlines_from cur s).
Proof.
  intros Hnil Hbreak Hcrlf Hchar s.
  remember (length s) as n eqn:Hn. revert s Hn.
  induction n as [n IH] using lt_wf_ind. intros [|c rest] Hn cur.
  - apply Hnil.
  - simpl in *. destruct (is_linebreak c) eqn:Hc.
    + destruct rest as [|d rest'].
      * apply Hbreak; [done|]. apply (IH 0%nat); [lia|done].
      * case_decide as Hpair.
        -- destruct Hpair as [-> ->]. apply Hcrlf.
           apply (IH (length rest')); [simpl in Hn; lia|done].
        -- apply Hbreak; [done|].
           apply (IH (length (d :: rest'))); [lia|done].
    + apply Hchar; [done|]. apply (IH (length rest)); [lia|done].
Qed.

Lemma split_double_space_from_ind
    (P : list ascii → list ascii → list (list ascii) → Prop) :
  (∀ cur, P cur [] [cur]) →
  (∀ cur rest r, P [] rest r → P cur (space :: space :: rest) (cur :: r)) →
  (∀ cur c rest r,
     ¬ (c = space ∧ head rest = Some space) →
     P (cur ++ [c]) rest r → P cur (c :: rest) r) →
  ∀ s cur, P cur s (split_double_space_from cur s).
Proof.
  intros Hnil Hcut Hchar s.
  remember (length s) as n eqn:Hn. revert s Hn.
  induction n as [n IH] using lt_wf_ind. intros [|c rest] Hn cur.
  - apply Hnil.
  - simpl in *. destruct rest as [|d rest'].
    + apply Hchar; [by intros [_ ?]|]. apply Hnil.
    + case_decide as Hpair.
      * destruct Hpair as [-> ->]. apply Hcut.
        apply (IH (length rest')); [simpl in Hn; lia|done].
      * apply Hchar; [intros [-> [= ->]]; by apply Hpair|].
        apply (IH (length (d :: rest'))); [lia|done].
Qed.

(** *** What stripping removes *)

Lemma lstrip_spec (s : list ascii) :
  ∃ pre, s = pre ++ lstrip s ∧ Forall (λ c, isspace c = true) pre.
Proof.
  induction s as [|c s (pre & Hs & Hpre)]; simpl; [by exists []|].
  destruct (isspace c) eqn:Hc.
  - exists (c :: pre). split; [by rewrite Hs at 1|by constructor].
  - by exists [].
Qed.

Lemma lstrip_head (s : list ascii) c :
  head (lstrip s) = Some c → isspace c = false.
Proof.
  induction s as [|d s IH]; simpl; [done|].
  destruct (isspace d) eqn:Hd; [done|]. by intros [= <-].
Qed.

Lemma lstrip_id (s : list ascii) :
  (∀ c, head s = Some c → isspace c = false) → lstrip s = s.
Proof.
  destruct s as [|c s]; simpl; [done|]. intros Hc.
  by rewrite (Hc c eq_refl).
Qed.

Lemma rstrip_spec (s : list ascii) :
  ∃ post, s = rstrip s ++ post ∧ Forall (λ c, isspace c = true) post.
Proof.
  unfold rstrip. destruct (lstrip_spec (reverse s)) as (pre & Hs & Hpre).
  exists (reverse pre). split; [|by apply Forall_reverse].
  by rewrite <- reverse_app, <- Hs, reverse_involutive.
Qed.

Lemma rstrip_last (s : list ascii) c :
  last (rstrip s) = Some c → isspace c = false.
Proof. unfold rstrip. rewrite last_reverse. apply lstrip_head. Qed.

Lemma rstrip_id (s : list ascii) :
  (∀ c, last s = Some c → isspace c = false) → rstrip s = s.
Proof.
  intros Hc. unfold rstrip. rewrite lstrip_id, reverse_involutive; [done|].
  intros c. rewrite head_reverse. apply Hc.
Qed.

Lemma rstrip_head (s : list ascii) c :
  (∀ d, head s = Some d → isspace d = false) →
  head (rstrip s) = Some c → isspace c = false.
Proof.
  intros Hs Hc. destruct (rstrip_spec s) as (post & Heq & Hpost).
  destruct (rstrip s) as [|d r]; [done|]. injection Hc as ->.
  apply Hs. by rewrite Heq.
Qed.

Lemma strip_spec (s : list ascii) :
  ∃ pre post,
    s = pre ++ strip s ++ post ∧
    Forall (λ c, isspace c = true) pre ∧
    Forall (λ c, isspace c = true) post.
Proof.
  unfold strip. destruct (lstrip_spec s) as (pre & Hs & Hpre).
  destruct (rstrip_spec (lstrip s)) as (post & Hl & Hpost).
  exists pre, post. by rewrite <- Hl.
Qed.

Lemma strip_head (s : list ascii) c :
  head (strip s) = Some c → isspace c = false.
Proof. unfold strip. apply rstrip_head. intros d. apply lstrip_head. Qed.

Lemma strip_last (s : list ascii) c :
  last (strip s) = Some c → isspace c = false.
Proof. apply rstrip_last. Qed.

Lemma strip_id (s : list ascii) :
  (∀ c, head s = Some c → isspace c = false) →
  (∀ c, last s = Some c → isspace c = false) →
  strip s = s.
Proof. intros Hh Hl. unfold strip. by rewrite lstrip_id, rstrip_id. Qed.

(** *** The clean-up keeps the text and drops only whitespace *)

Section clean_up_content.
(** The characters of a text that are not whitespace, in order. *)
Let ns : list ascii → list ascii := filter (λ c : ascii, isspace c = false).

Lemma ns_nil : ns [] = [].
Proof. subst ns. apply filter_nil. Qed.

Lemma ns_app (l1 l2 : list ascii) : ns (l1 ++ l2) = ns l1 ++ ns l2.
Proof. subst ns. apply filter_app. Qed.

Lemma ns_cons_space c (l : list ascii) : isspace c = true → ns (c :: l) = ns l.
Proof. intros Hc. subst ns. by rewrite filter_cons_False by congruence. Qed.

Lemma ns_cons (c : ascii) (l : list ascii) : ns (c :: l) = ns [c] ++ ns l.
Proof. apply (ns_app [c] l). Qed.

Lemma ns_spaces (l : list ascii) :
  Forall (λ c, isspace c = true) l → ns l = [].
Proof.
  induction 1 as [|c l Hc _ IH]; [apply ns_nil|].
  by rewrite ns_cons_space.
Qed.

Lemma ns_strip (s : list ascii) : ns (strip s) = ns s.
Proof.
  destruct (strip_spec s) as (pre & post & Hs & Hpre & Hpost).
  rewrite Hs at 2. rewrite !ns_app.
  by rewrite (ns_spaces pre), (ns_spaces post), app_nil_r.
Qed.

Lemma ns_splitlines_from s cur :
  concat (ns <$> splitlines_from cur s) = ns cur ++ ns s.
Proof.
  apply (splitlines_from_ind
           (λ cur s r, concat (ns <$> r) = ns cur ++ ns s)).
  - intros [|c l]; rewrite ?fmap_cons; simpl; by rewrite ?ns_nil, ?app_nil_r.
  - intros cur' c rest r Hc IH. rewrite fmap_cons. simpl.
    rewrite IH, ns_nil. simpl.
    by rewrite (ns_cons_space c) by (by apply is_linebreak_isspace).
  - intros cur' rest r IH. rewrite fmap_cons. simpl.
    rewrite IH, ns_nil. simpl. by rewrite !ns_cons_space.
  - intros cur' c rest r Hc IH.
    by rewrite IH, ns_app, (ns_cons c rest), <- app_assoc.
Qed.

Lemma ns_split_double_space_from s cur :
  concat (ns <$> split_double_space_from cur s) = ns cur ++ ns s.
Proof.
  apply (split_double_space_from_ind
           (λ cur s r, concat (ns <$> r) = ns cur ++ ns s)).
  - intros cur'. rewrite fmap_cons. simpl. by rewrite ns_nil.
  - intros cur' rest r IH. rewrite fmap_cons. simpl.
    rewrite IH, ns_nil. simpl. by rewrite !ns_cons_space.
  - intros cur' c rest r _ IH.
    by rewrite IH, ns_app, (ns_cons c rest), <- app_assoc.
Qed.

Lemma ns_join_space (pieces : list (list ascii)) :
  ns (join_space pieces) = concat (ns <$> pieces).
Proof.
  induction pieces as [|p [|q rest] IH]; [apply ns_nil| |].
  - rewrite fmap_cons. simpl. by rewrite app_nil_r.
  - change (join_space (p :: q :: rest))
      with (p ++ space :: join_space (q :: rest)).
    rewrite ns_app, (ns_cons_space space) by done. rewrite IH.
    by rewrite (fmap_cons ns p).
Qed.

Lemma ns_filter_nonempty (pieces : list (list ascii)) :
  concat (ns <$> filter (λ chunk, chunk ≠ []) pieces) = concat (ns <$> pieces).
Proof.
  induction pieces as [|p pieces IH]; [done|].
  rewrite filter_cons. case_decide as Hp.
  - rewrite !fmap_cons. simpl. by rewrite IH.
  - subst p. rewrite fmap_cons, ns_nil. exact IH.
Qed.

Lemma ns_clean_up_whitespace (text : list ascii) :
  ns (clean_up_whitespace text) = ns text.
Proof.
  unfold clean_up_whitespace.
  rewrite ns_join_space, ns_filter_nonempty.
  transitivity (concat (ns <$> splitlines text)).
  - induction (splitlines text) as [|line lines IH]; [done|].
    rewrite fmap_cons, bind_cons, !fmap_app, concat_app, IH.
    rewrite (fmap_cons ns line). simpl. f_equal.
    rewrite <- list_fmap_compose.
    rewrite (list_fmap_ext (ns ∘ strip) ns) by (intros; apply ns_strip).
    unfold split_double_space. rewrite ns_split_double_space_from.
    rewrite ns_nil. simpl. apply ns_strip.
  - unfold splitlines. by rewrite ns_splitlines_from, ns_nil.
Qed.
End clean_up_content.

(** *** The clean-up leaves one trimmed, single-spaced line *)

Lemma Sorted_app_l {A} (R : relation A) (l1 l2 : list A) :
  Sorted R (l1 ++ l2) → Sorted R l1.
Proof.
  induction l1 as [|a l1 IH]; simpl; [constructor|].
  intros [Hs Hh]%Sorted_inv. constructor; [by apply IH|].
  destruct l1; [constructor|]. inversion_clear Hh. by constructor.
Qed.

Lemma Sorted_app_r {A} (R : relation A) (l1 l2 : list A) :
  Sorted R (l1 ++ l2) → Sorted R l2.
Proof.
  induction l1 as [|a l1 IH]; simpl; [done|].
  intros [Hs _]%Sorted_inv. by apply IH.
Qed.

Lemma Sorted_app_glue {A} (R : relation A) (l1 l2 : list A) :
  Sorted R l1 → Sorted R l2 →
  (∀ a b, last l1 = Some a → head l2 = Some b → R a b) →
  Sorted R (l1 ++ l2).
Proof.
  intros H1 H2. induction H1 as [|a l1 H1 IH Ha]; intros Hglue; [done|].
  simpl. constructor.
  - apply IH. intros x y Hx Hy. apply Hglue; [|done].
    destruct l1; [done|]. by rewrite last_cons_cons.
  - destruct l1 as [|b l1]; simpl.
    + destruct l2 as [|y l2]; constructor. by apply Hglue.
    + inversion_clear Ha. by constructor.
Qed.

Lemma no_double_space_l (a b : ascii) : isspace a = false → no_double_space a b.
Proof. intros Ha [-> _]. discriminate. Qed.

Lemma no_double_space_r (a b : ascii) : isspace b = false → no_double_space a b.
Proof. intros Hb [_ ->]. discriminate. Qed.

Lemma strip_Forall (P : ascii → Prop) (s : list ascii) :
  Forall P s → Forall P (strip s).
Proof.
  destruct (strip_spec s) as (pre & post & Hs & _ & _).
  rewrite Hs at 1. by intros [_ [? _]%Forall_app]%Forall_app.
Qed.

Lemma strip_Sorted (R : relation ascii) (s : list ascii) :
  Sorted R s → Sorted R (strip s).
Proof.
  destruct (strip_spec s) as (pre & post & Hs & _ & _).
  rewrite Hs at 1. by intros ?%Sorted_app_r%Sorted_app_l.
Qed.

Lemma splitlines_from_no_linebreak (s cur : list ascii) :
  Forall (λ c, is_linebreak c = false) cur →
  Forall (Forall (λ c, is_linebreak c = false)) (splitlines_from cur s).
Proof.
  apply (splitlines_from_ind
           (λ cur s r,
              Forall (λ c, is_linebreak c = false) cur →
              Forall (Forall (λ c, is_linebreak c = false)) r)).
  - intros [|c l] Hcur; [constructor|]. by constructor.
  - intros cur' c rest r _ IH Hcur. constructor; [done|]. by apply IH.
  - intros cur' rest r IH Hcur. constructor; [done|]. by apply IH.
  - intros cur' c rest r Hc IH Hcur. apply IH.
    apply Forall_app. split; [done|]. by repeat constructor.
Qed.

Lemma split_double_space_from_Forall (P : ascii → Prop) (s cur : list ascii) :
  Forall P cur → Forall P s →
  Forall (Forall P) (split_double_space_from cur s).
Proof.
  apply (split_double_space_from_ind
           (λ cur s r, Forall P cur → Forall P s → Forall (Forall P) r)).
  - intros cur' Hcur _. by constructor.
  - intros cur' rest r IH Hcur Hs. constructor; [done|].
    apply IH; [constructor|]. by do 2 apply Forall_cons_1, proj2 in Hs.
  - intros cur' c rest r _ IH Hcur [Hc Hrest]%Forall_cons_1.
    apply IH; [|done]. apply Forall_app. split; [done|]. by repeat constructor.
Qed.

Lemma split_double_space_from_Sorted (s cur : list ascii) :
  Sorted no_double_space cur →
  (last cur = Some space → head s ≠ Some space) →
  Forall (Sorted no_double_space) (split_double_space_from cur s).
Proof.
  apply (split_double_space_from_ind
           (λ cur s r,
              Sorted no_double_space cur →
              (last cur = Some space → head s ≠ Some space) →
              Forall (Sorted no_double_space) r)).
  - intros cur' Hcur _. by constructor.
  - intros cur' rest r IH Hcur _. constructor; [done|].
    apply IH; [constructor|done].
  - intros cur' c rest r Hpair IH Hcur Hlast. apply IH.
    + apply Sorted_app_glue; [done|by repeat constructor|].
      intros a b Ha [= <-] [-> ->]. by apply Hlast.
    + rewrite last_snoc. intros [= ->] Hrest. by apply Hpair.
Qed.

Lemma join_space_Forall (P : ascii → Prop) (pieces : list (list ascii)) :
  P space → Forall (Forall P) pieces → Forall P (join_space pieces).
Proof.
  intros Hspace. induction pieces as [|p [|q rest] IH]; intros Hp.
  - constructor.
  - by apply Forall_cons_1 in Hp as [? _].
  - apply Forall_cons_1 in Hp as [Hp Hrest].
    change (join_space (p :: q :: rest))
      with (p ++ space :: join_space (q :: rest)).
    apply Forall_app. split; [done|]. constructor; [done|]. by apply IH.
Qed.

(** A chunk that [' '.join] receives: not empty, without whitespace at
    either end and without two spaces in a row. *)
Lemma join_space_trimmed (pieces : list (list ascii)) :
  Forall (λ p, p ≠ [] ∧
               (∀ c, head p = Some c → isspace c = false) ∧
               (∀ c, last p = Some c → isspace c = false) ∧
               Sorted no_double_space p) pieces →
  (∀ c, head (join_space pieces) = Some c → isspace c = false) ∧
  (∀ c, last (join_space pieces) = Some c → isspace c = false) ∧
  Sorted no_double_space (join_space pieces).
Proof.
  induction pieces as [|p [|q rest] IH]; intros Hp.
  - by repeat split; [..|constructor].
  - by apply Forall_cons_1 in Hp as [(_ & ? & ? & ?) _].
  - apply Forall_cons_1 in Hp as [(Hne & Hhead & Hlast & Hsorted) Hrest].
    destruct (IH Hrest) as (IHhead & IHlast & IHsorted).
    assert (join_space (q :: rest) ≠ []) as Hjoin.
    { apply Forall_cons_1 in Hrest as [(Hq & _) _].
      destruct rest; simpl; [done|]. by destruct q. }
    change (join_space (p :: q :: rest))
      with (p ++ space :: join_space (q :: rest)).
    split; [|split].
    + intros c. destruct p; [done|]. apply Hhead.
    + intros c. rewrite last_app, last_cons.
      destruct (last (join_space (q :: rest))) as [y|] eqn:Hy.
      * intros [= <-]. by apply IHlast.
      * by apply last_None in Hy.
    + apply Sorted_app_glue; [done| |].
      * constructor; [done|].
        destruct (join_space (q :: rest)) as [|y l]; constructor.
        apply no_double_space_r. by apply IHhead.
      * intros a b Ha _. apply no_double_space_l. by apply Hlast.
Qed.

Lemma clean_up_whitespace_normal (text : list ascii) :
  (∀ c, head (clean_up_whitespace text) = Some c → isspace c = false) ∧
  (∀ c, last (clean_up_whitespace text) = Some c → isspace c = false) ∧
  Sorted no_double_space (clean_up_whitespace text) ∧
  Forall (λ c, is_linebreak c = false) (clean_up_whitespace text).
Proof.
  unfold clean_up_whitespace.
  set (chunks := filter _ _).
  assert (∀ chunk, chunk ∈ chunks →
            ∃ line piece,
              line ∈ splitlines text ∧
              piece ∈ split_double_space (strip line) ∧
              chunk = strip piece ∧ chunk ≠ []) as Hchunks.
  { intros chunk [Hne Hin]%list_elem_of_filter.
    apply list_elem_of_bind in Hin as (line' & Hin & Hline).
    apply list_elem_of_fmap in Hline as (line & -> & Hline).
    apply list_elem_of_fmap in Hin as (piece & -> & Hpiece).
    by exists line, piece. }
  cut (((∀ c, head (join_space chunks) = Some c → isspace c = false) ∧
        (∀ c, last (join_space chunks) = Some c → isspace c = false) ∧
        Sorted no_double_space (join_space chunks)) ∧
       Forall (λ c, is_linebreak c = false) (join_space chunks)).
  { by intros [(? & ? & ?) ?]. }
  split.
  - apply join_space_trimmed.
    apply Forall_forall. intros chunk Hchunk.
    destruct (Hchunks chunk Hchunk) as (line & piece & _ & Hpiece & -> & Hne).
    split; [done|]. split; [apply strip_head|]. split; [apply strip_last|].
    apply strip_Sorted.
    pose proof (split_double_space_from_Sorted (strip line) []) as Hsorted.
    rewrite Forall_forall in Hsorted. apply Hsorted; [constructor|done|done].
  - apply join_space_Forall; [done|].
    apply Forall_forall. intros chunk Hchunk.
    destruct (Hchunks chunk Hchunk) as (line & piece & Hline & Hpiece & -> & _).
    apply strip_Forall.
    assert (Forall (λ c, is_linebreak c = false) (strip line)) as Hstrip.
    { apply strip_Forall.
      pose proof (splitlines_from_no_linebreak text [] (Forall_nil_2 _))
        as Hlines.
      eapply Forall_forall in Hlines; [exact Hlines|exact Hline]. }
    pose proof (split_double_space_from_Forall
                  (λ c, is_linebreak c = false) (strip line) []
                  (Forall_nil_2 _) Hstrip) as Hsplit.
    eapply Forall_forall in Hsplit; [exact Hsplit|exact Hpiece].
Qed.

Lemma splitlines_from_one_line (s cur : list ascii) :
  Forall (λ c, is_linebreak c = false) s →
  splitlines_from cur s =
    match cur ++ s with [] => [] | _ => [cur ++ s] end.
Proof.
  apply (splitlines_from_ind
           (λ cur s r,
              Forall (λ c, is_linebreak c = false) s →
              r = match cur ++ s with [] => [] | _ => [cur ++ s] end)).
  - intros cur' _. rewrite app_nil_r. by destruct cur'.
  - intros cur' c rest r Hc _ [Hc' _]%Forall_cons_1. congruence.
  - intros cur' rest r _ [Hc' _]%Forall_cons_1. discriminate.
  - intros cur' c rest r _ IH [_ Hrest]%Forall_cons_1.
    by rewrite IH, <- app_assoc.
Qed.

Lemma split_double_space_from_one_piece (s cur : list ascii) :
  Sorted no_double_space s → split_double_space_from cur s = [cur ++ s].
Proof.
  apply (split_double_space_from_ind
           (λ cur s r, Sorted no_double_space s → r = [cur ++ s])).
  - intros cur' _. by rewrite app_nil_r.
  - intros cur' rest r _ [_ Hh]%Sorted_inv. inversion_clear Hh as [|? ? Hpair].
    by destruct Hpair.
  - intros cur' c rest r _ IH [Hrest _]%Sorted_inv.
    by rewrite IH, <- app_assoc.
Qed.

(** A text in the form the clean-up produces is left as it is. *)
Lemma clean_up_whitespace_fixed (u : list ascii) :
  (∀ c, head u = Some c → isspace c = false) →
  (∀ c, last u = Some c → isspace c = false) →
  Sorted no_double_space u →
  Forall (λ c, is_linebreak c = false) u →
  clean_up_whitespace u = u.
Proof.
  intros Hhead Hlast Hsorted Hlines. unfold clean_up_whitespace, splitlines.
  rewrite splitlines_from_one_line by done. simpl.
  destruct u as [|c u']; [done|]. set (u := c :: u') in *.
  change (strip <$> [u]) with [strip u]. rewrite (strip_id u) by done.
  change ([u] ≫= (λ line, strip <$> split_double_space line))
    with ((strip <$> split_double_space_from [] u) ++ []).
  rewrite split_double_space_from_one_piece by done.
  change (strip <$> [[] ++ u]) with [strip u]. rewrite (strip_id u) by done.
  rewrite app_nil_r, filter_cons_True by done. done.
Qed.

Lemma clean_up_whitespace_idempotent (text : list ascii) :
  clean_up_whitespace (clean_up_whitespace text) = clean_up_whitespace text.
Proof.
  destruct (clean_up_whitespace_normal text) as (? & ? & ? & ?).
  by apply clean_up_whitespace_fixed.
Qed.

Lemma chars_text_of (l : list ascii) : chars (text_of l) = l.
Proof. apply String.list_ascii_of_string_of_list_ascii. Qed.

Lemma text_of_chars (s : string) : text_of (chars s) = s.
Proof. apply String.string_of_list_ascii_of_string. Qed.

(** ** [load_web_page] *)

(** X4: the text returned by [load_web_page] (of [DocProcessor] and of
    [DocumentProcessor]) is one line: it holds no line boundary, no two
    spaces in a row and no whitespace at either end. *)
Theorem load_web_page_one_line {response}
    (requests_get : string → string → result response)
    (soup_get_text : response → result string) (url text : string) :
  DocProcessor_io.load_web_page response requests_get soup_get_text url
    = Ok text ∨
  fst (DocumentProcessor_io.load_web_page response requests_get soup_get_text
         url) = Ok text →
  Forall (λ c, is_linebreak c = false) (chars text) ∧
  Sorted no_double_space (chars text) ∧
  strip (chars text) = chars text.
Proof.
  intros Hload.
  assert (∃ page, text = clean_up page) as [page ->].
  { unfold DocProcessor_io.load_web_page, DocumentProcessor_io.load_web_page
      in Hload.
    destruct Hload as [Hload|Hload].
    - destruct (requests_get url _) as [r|e]; [|done].
      destruct (soup_get_text r) as [page|e]; [|done].
      exists page. by injection Hload.
    - destruct (requests_get url _) as [r|e]; [|done].
      destruct (soup_get_text r) as [page|e]; [|done].
      exists page. by injection Hload. }
  unfold clean_up. rewrite chars_text_of.
  destruct (clean_up_whitespace_normal (chars page)) as (Hh & Hl & Hs & Hf).
  split; [done|]. split; [done|]. by apply strip_id.
Qed.

Lemma load_web_page_one_line_witness :
  let text := "Title of page for example.org" in
  Forall (λ c, is_linebreak c = false) (chars text) ∧
  Sorted no_double_space (chars text) ∧
  strip (chars text) = chars text.
Proof.
  intros text.
  apply (load_web_page_one_line Sample_io.requests_get
           Sample_io.soup_get_text "example.org" text).
  left. reflexivity.
Defined.

(** X5: [load_web_page] changes whitespace only: the characters of the
    returned text that are not whitespace are those of the page's text, in
    the same order. *)
Theorem load_web_page_keeps_text {response}
    (requests_get : string → string → result response)
    (soup_get_text : response → result string) (url page : string)
    (r : response) :
  soup_get_text r = Ok page →
  (requests_get url DocProcessor_io.user_agent = Ok r →
   ∃ text,
     DocProcessor_io.load_web_page response requests_get soup_get_text url
       = Ok text ∧
     filter (λ c, isspace c = false) (chars text)
       = filter (λ c, isspace c = false) (chars page)) ∧
  (requests_get url DocumentProcessor_io.user_agent = Ok r →
   ∃ text,
     DocumentProcessor_io.load_web_page response requests_get soup_get_text
       url = (Ok text, []) ∧
     filter (λ c, isspace c = false) (chars text)
       = filter (λ c, isspace c = false) (chars page)).
Proof.
  intros Hpage. split; intros Hget; exists (clean_up page).
  - unfold DocProcessor_io.load_web_page. rewrite Hget, Hpage.
    split; [done|]. unfold clean_up. rewrite chars_text_of.
    apply ns_clean_up_whitespace.
  - unfold DocumentProcessor_io.load_web_page. rewrite Hget, Hpage.
    split; [done|]. unfold clean_up. rewrite chars_text_of.
    apply ns_clean_up_whitespace.
Qed.

Lemma load_web_page_keeps_text_witness :
  ∃ text,
    DocProcessor_io.load_web_page string Sample_io.requests_get
      Sample_io.soup_get_text "example.org" = Ok text ∧
    filter (λ c, isspace c = false) (chars text)
      = chars "Titleofpageforexample.org".
Proof.
  apply (load_web_page_keeps_text Sample_io.requests_get
           Sample_io.soup_get_text "example.org"
           ("  Title   of page " +:+ nl +:+ nl +:+ " for example.org  ")
           ("  Title   of page " +:+ nl +:+ nl +:+ " for example.org  ")).
  - reflexivity.
  - reflexivity.
Defined.

(** X6: a page whose text is already one trimmed, single-spaced line is
    returned by [load_web_page] as it is, so a text that [load_web_page]
    returned passes through it unchanged. *)
Theorem load_web_page_fixed {response}
    (requests_get : string → string → result response)
    (soup_get_text : response → result string) (url page : string)
    (r : response) :
  soup_get_text r = Ok page →
  Forall (λ c, is_linebreak c = false) (chars page) →
  Sorted no_double_space (chars page) →
  strip (chars page) = chars page →
  (requests_get url DocProcessor_io.user_agent = Ok r →
   DocProcessor_io.load_web_page response requests_get soup_get_text url
     = Ok page) ∧
  (requests_get url DocumentProcessor_io.user_agent = Ok r →
   DocumentProcessor_io.load_web_page response requests_get soup_get_text url
     = (Ok page, [])).
Proof.
  intros Hpage Hlines Hsorted Hstrip.
  assert (clean_up page = page) as Hfixed.
  { unfold clean_up. rewrite clean_up_whitespace_fixed, text_of_chars; try done.
    - intros c Hc. apply (strip_head (chars page)). by rewrite Hstrip.
    - intros c Hc. apply (strip_last (chars page)). by rewrite Hstrip. }
  split; intros Hget.
  - unfold DocProcessor_io.load_web_page. by rewrite Hget, Hpage, Hfixed.
  - unfold DocumentProcessor_io.load_web_page. by rewrite Hget, Hpage, Hfixed.
Qed.

Lemma load_web_page_fixed_witness :
  DocumentProcessor_io.load_web_page string Sample_io.requests_get_clean
    Sample_io.soup_get_text "example.org" = (Ok "Vector databases", []).
Proof.
  apply (load_web_page_fixed Sample_io.requests_get_clean
           Sample_io.soup_get_text "example.org" "Vector databases"
           "Vector databases").
  - reflexivity.
  - by repeat constructor.
  - repeat (constructor; [|first [constructor; by intros [? ?] | constructor]]).
    constructor.
  - reflexivity.
  - reflexivity.
Defined.

(** ** [process_file] and [process_url] *)

Lemma chunk_text_documents {splitter}
    (split_text : splitter → string → list string)
    (self : DocProcessor.t splitter) (text : string)
    (metadata : gmap string scalar) (i : nat) (d : document) :
  DocProcessor.chunk_text splitter split_text self text (Some metadata) !! i
    = Some d →
  doc_text d = split_text (DocProcessor.text_splitter self) text !! i ∧
  doc_id d = Some (str_scalar (default (SStr "doc") (metadata !! "source"))
                     +:+ "_" +:+ pretty i) ∧
  ∀ key, key ≠ "chunk_id" → key ≠ "chunk_count" →
    doc_metadata d ≫= (λ m : gmap string scalar, m !! key) = metadata !! key.
Proof.
  unfold DocProcessor.chunk_text. simpl. rewrite list_lookup_imap.
  destruct (split_text _ text !! i) as [chunk|] eqn:Hchunk; [|done].
  intros [= <-]. split; [done|]. split; [done|].
  intros key ? ?. by apply metadata_chunk_document.
Qed.

(** X7: [process_file] (of [DocProcessor] and of [DocumentProcessor]) raises
    the exception of the failed read without producing documents
    ([DocumentProcessor] logs one line naming the path); otherwise document
    [i] holds chunk [i] of the file's text, its identifier is the source
    name, or the file path when no source name is given, followed by an
    underscore and [i], and its metadata carries that source, the type
    ['file'] and the file path. *)
Theorem process_file_documents {splitter}
    (split_text : splitter → string → list string)
    (open_read : string → result string)
    (s : splitter) (file_path : string) (source_name : option string) :
  let source := default file_path source_name in
  let out :=
    DocProcessor_io.process_file splitter split_text open_read
      (DocProcessor.Build_t s) file_path source_name in
  let out_logged :=
    DocumentProcessor_io.process_file splitter split_text open_read
      (DocumentProcessor.Build_t s) file_path source_name in
  match open_read file_path with
  | Raise e =>
      out = Raise e ∧
      out_logged =
        (Raise e,
         ["Error loading file " +:+ file_path +:+ ": " +:+ str_exn e])
  | Ok text =>
      ∃ docs,
        out = Ok docs ∧ out_logged = (Ok docs, []) ∧
        doc_text <$> docs = Some <$> split_text s text ∧
        ∀ i d, docs !! i = Some d →
          doc_id d = Some (source +:+ "_" +:+ pretty i) ∧
          ∃ m : gmap string scalar,
            doc_metadata d = Some m ∧
            m !! "source" = Some (SStr source) ∧
            m !! "type" = Some (SStr "file") ∧
            m !! "file_path" = Some (SStr file_path)
  end.
Proof.
  intros source out out_logged. subst out out_logged.
  unfold DocProcessor_io.process_file, DocumentProcessor_io.process_file,
    DocProcessor_io.load_text_file, DocumentProcessor_io.load_text_file.
  destruct (open_read file_path) as [text|e]; [|done].
  eexists. split; [done|]. split; [done|].
  split; [apply (chunk_text_texts split_text (DocProcessor.Build_t s))|].
  intros i d Hd.
  apply chunk_text_documents in Hd as (_ & Hid & Hmeta).
  split.
  { rewrite Hid. by rewrite !lookup_insert_ne, lookup_singleton_eq. }
  destruct (doc_metadata d) as [m|] eqn:Hm.
  - exists m. split; [done|]. simpl in Hmeta.
    rewrite !Hmeta by done.
    split; [by rewrite !lookup_insert_ne, lookup_singleton_eq|].
    split; [by rewrite lookup_insert_ne, lookup_insert_eq|].
    by rewrite lookup_insert_eq.
  - specialize (Hmeta "type"). simpl in Hmeta.
    rewrite lookup_insert_ne, lookup_insert_eq in Hmeta by done.
    by discriminate Hmeta.
Qed.

(** X8: [process_url] (of [DocProcessor] and of [DocumentProcessor]) raises
    the exception of the failed page load without producing documents;
    otherwise document [i] holds chunk [i] of the cleaned page text, its
    identifier is the source name, or the address when no source name is
    given, followed by an underscore and [i], and its metadata carries that
    source, the type ['web'] and the address. *)
Theorem process_url_documents {splitter response}
    (split_text : splitter → string → list string)
    (requests_get : string → string → result response)
    (soup_get_text : response → result string)
    (s : splitter) (url : string) (source_name : option string) :
  let source := default url source_name in
  let documents_of text (docs : list document) :=
    doc_text <$> docs = Some <$> split_text s text ∧
    ∀ i d, docs !! i = Some d →
      doc_id d = Some (source +:+ "_" +:+ pretty i) ∧
      ∃ m : gmap string scalar,
        doc_metadata d = Some m ∧
        m !! "source" = Some (SStr source) ∧
        m !! "type" = Some (SStr "web") ∧
        m !! "url" = Some (SStr url) in
  match DocProcessor_io.load_web_page response requests_get soup_get_text url
  with
  | Raise e =>
      DocProcessor_io.process_url splitter split_text response requests_get
        soup_get_text (DocProcessor.Build_t s) url source_name = Raise e
  | Ok text =>
      ∃ docs,
        DocProcessor_io.process_url splitter split_text response requests_get
          soup_get_text (DocProcessor.Build_t s) url source_name = Ok docs ∧
        documents_of text docs
  end ∧
  match DocumentProcessor_io.load_web_page response requests_get soup_get_text
          url with
  | (Raise e, log) =>
      DocumentProcessor_io.process_url splitter split_text response
        requests_get soup_get_text (DocumentProcessor.Build_t s) url
        source_name = (Raise e, log) ∧
      log = ["Error loading web page " +:+ url +:+ ": " +:+ str_exn e]
  | (Ok text, log) =>
      ∃ docs,
        DocumentProcessor_io.process_url splitter split_text response
          requests_get soup_get_text (DocumentProcessor.Build_t s) url
          source_name = (Ok docs, []) ∧
        documents_of text docs
  end.
Proof.
  intros source documents_of.
  assert (∀ text,
    documents_of text
      (DocProcessor.chunk_text splitter split_text (DocProcessor.Build_t s)
         text (Some (<["url" := SStr url]>
                       (<["type" := SStr "web"]>
                          {["source" := SStr source]}))))) as Hdocs.
  { intros text.
    split; [apply (chunk_text_texts split_text (DocProcessor.Build_t s))|].
    intros i d Hd.
    apply chunk_text_documents in Hd as (_ & Hid & Hmeta).
    split.
    { rewrite Hid. by rewrite !lookup_insert_ne, lookup_singleton_eq. }
    destruct (doc_metadata d) as [m|] eqn:Hm.
    - exists m. split; [done|]. simpl in Hmeta.
      rewrite !Hmeta by done.
      split; [by rewrite !lookup_insert_ne, lookup_singleton_eq|].
      split; [by rewrite lookup_insert_ne, lookup_insert_eq|].
      by rewrite lookup_insert_eq.
    - specialize (Hmeta "type"). simpl in Hmeta.
      rewrite lookup_insert_ne, lookup_insert_eq in Hmeta by done.
      by discriminate Hmeta. }
  split.
  - unfold DocProcessor_io.process_url.
    destruct (DocProcessor_io.load_web_page _ _ _ url) as [text|e]; [|done].
    eexists. split; [done|]. apply Hdocs.
  - unfold DocumentProcessor_io.process_url.
    destruct (DocumentProcessor_io.load_web_page _ _ _ url)
      as [[text|e] log] eqn:Hload.
    + unfold DocumentProcessor_io.load_web_page in Hload.
      destruct (requests_get url _) as [r|e]; [|done].
      destruct (soup_get_text r) as [page|e]; [|done].
      injection Hload as <- <-. eexists. split; [done|]. apply Hdocs.
    + split; [done|].
      unfold DocumentProcessor_io.load_web_page in Hload.
      destruct (requests_get url _) as [r|e']; [|by injection Hload as <- <-].
      destruct (soup_get_text r) as [page|e']; [done|].
      by injection Hload as <- <-.
Qed.

(** ** [SimpleRAG.add_documents]: where a batch stops *)

Section add_documents_more.
Context {Emb : Type}.
Variable embedding_model : string.
Variable embeddings_create : string → string → result Emb.

Let add_documents_loop :=
  SimpleRAG.add_documents_loop embedding_model embeddings_create.

(** The loop passes over the documents that have a text and an embedding,
    with one embedding call each, and stops where the rest of the batch
    stops. *)
Lemma add_documents_loop_stops (pre : list document) :
  ∀ (ts : list string) (vs : list Emb) rest e evs,
  doc_text <$> pre = Some <$> ts →
  Forall2 (λ t v, embeddings_create embedding_model t = Ok v) ts vs →
  (∀ i b (w : world Emb),
     add_documents_loop i rest b w =
       (Raise e, {| collection := collection w; trace := trace w ++ evs |})) →
  ∀ i b (w : world Emb),
    add_documents_loop i (pre ++ rest) b w =
      (Raise e,
       {| collection := collection w;
          trace := trace w ++ (EmbeddingsCreate embedding_model <$> ts)
                     ++ evs |}).
Proof.
  subst add_documents_loop.
  induction pre as [|d pre IH]; intros ts vs rest e evs Hts Hvs Hrest i b w.
  - destruct ts; [|done]. simpl. apply Hrest.
  - destruct ts as [|t ts]; [done|]. rewrite !fmap_cons in Hts.
    injection Hts as Ht Hts.
    apply Forall2_cons_inv_l in Hvs as (v & vs' & Hv & Hvs & ->).
    simpl. unfold bind at 1. unfold SimpleRAG.getitem_text. rewrite Ht.
    unfold ret at 1. unfold bind at 1.
    rewrite (create_embedding_ok embedding_model embeddings_create _ _ _ Hv).
    rewrite (IH ts vs' rest e evs Hts Hvs Hrest). simpl.
    by rewrite <- app_assoc.
Qed.

(** The loop returns when every document has a text that the embedding call
    accepts, with the four lists filled in batch order. *)
Lemma add_documents_loop_complete (documents : list document) :
  ∀ (ts : list string) (vs : list Emb) i b (w : world Emb),
  doc_text <$> documents = Some <$> ts →
  Forall2 (λ t v, embeddings_create embedding_model t = Ok v) ts vs →
  add_documents_loop i documents b w =
    (Ok {| SimpleRAG.texts := SimpleRAG.texts b ++ ts;
           SimpleRAG.embeddings := SimpleRAG.embeddings b ++ vs;
           SimpleRAG.metadatas :=
             SimpleRAG.metadatas b
               ++ ((λ d, default ∅ (doc_metadata d)) <$> documents);
           SimpleRAG.ids :=
             SimpleRAG.ids b ++ imap (λ j, assigned_id (i + j)) documents |},
     {| collection := collection w;
        trace := trace w ++ (EmbeddingsCreate embedding_model <$> ts) |}).
Proof.
  subst add_documents_loop.
  induction documents as [|d documents IH]; intros ts vs i b w Hts Hvs.
  - destruct ts; [|done]. apply Forall2_nil_inv_l in Hvs as ->.
    simpl. unfold ret. rewrite !app_nil_r, world_eta. by destruct b.
  - destruct ts as [|t ts]; [done|]. rewrite !fmap_cons in Hts.
    injection Hts as Ht Hts.
    apply Forall2_cons_inv_l in Hvs as (v & vs' & Hv & Hvs & ->).
    simpl. unfold bind at 1. unfold SimpleRAG.getitem_text. rewrite Ht.
    unfold ret at 1. unfold bind at 1.
    rewrite (create_embedding_ok embedding_model embeddings_create _ _ _ Hv).
    rewrite (IH ts vs' (S i) _ _ Hts Hvs). simpl.
    rewrite <- !app_assoc, Nat.add_0_r. simpl. do 5 f_equal.
    apply imap_ext. intros j d' _. simpl. f_equal. lia.
Qed.
End add_documents_more.

(** X9: a document without the key ['text'] stops [add_documents] with
    [KeyError('text')]: the documents in front of it were embedded, one call
    each in batch order, the documents behind it are never embedded, the
    collection is not called and keeps its entries, and one line is logged. *)
Theorem add_documents_missing_text {Emb} (embedding_model : string)
    (embeddings_create : string → string → result Emb)
    (chroma_add :
       list (entry Emb) → list string → list Emb →
       list (gmap string scalar) → list string →
       result unit * list (entry Emb))
    (pre post : list document) (d : document) (ts : list string)
    (vs : list Emb) (w : world Emb) :
  doc_text <$> pre = Some <$> ts →
  Forall2 (λ t v, embeddings_create embedding_model t = Ok v) ts vs →
  doc_text d = None →
  SimpleRAG.add_documents embedding_model embeddings_create chroma_add
    (pre ++ d :: post) w =
  (Raise (KeyError "text"),
   {| collection := collection w;
      trace := trace w ++ (EmbeddingsCreate embedding_model <$> ts)
                 ++ [LogError "Error adding documents: 'text'"] |}).
Proof.
  intros Hts Hvs Hd.
  assert (∀ i b (w0 : world Emb),
    SimpleRAG.add_documents_loop embedding_model embeddings_create i
      (d :: post) b w0 =
    (Raise (KeyError "text"),
     {| collection := collection w0; trace := trace w0 ++ [] |})) as Hstop.
  { intros i b w0. simpl. unfold bind at 1, SimpleRAG.getitem_text.
    rewrite Hd. unfold raise. by rewrite app_nil_r, world_eta. }
  rewrite (add_documents_of_loop_raise embedding_model embeddings_create
             chroma_add _ w _ (KeyError "text")
             (add_documents_loop_stops embedding_model embeddings_create
                pre ts vs (d :: post) (KeyError "text") [] Hts Hvs Hstop
                _ _ w)).
  simpl. by rewrite app_nil_r, <- app_assoc.
Qed.

Lemma add_documents_missing_text_witness :
  SimpleRAG.add_documents "text-embedding-3-small" Sample.embeddings_create
    Sample.chroma_add
    ([ {| doc_text := Some "alpha"; doc_metadata := None;
          doc_id := Some "a" |} ]
     ++ {| doc_text := None; doc_metadata := None; doc_id := Some "b" |}
     :: [ {| doc_text := Some "gamma ray"; doc_metadata := None;
             doc_id := Some "c" |} ])
    Sample.world_abc =
  (Raise (KeyError "text"),
   {| collection := collection Sample.world_abc;
      trace := trace Sample.world_abc
        ++ (EmbeddingsCreate "text-embedding-3-small" <$> ["alpha"])
        ++ [LogError "Error adding documents: 'text'"] |}).
Proof.
  apply (add_documents_missing_text "text-embedding-3-small"
           Sample.embeddings_create Sample.chroma_add _ _ _ ["alpha"] [5%Z]).
  - reflexivity.
  - repeat constructor.
  - reflexivity.
Defined.

(** X10: the first document whose embedding call raises stops
    [add_documents] with that exception: the documents in front of it were
    embedded, the failed call is the last embedding call, the documents
    behind it are never embedded, and the collection is not called and keeps
    its entries. *)
Theorem add_documents_first_failure {Emb} (embedding_model : string)
    (embeddings_create : string → string → result Emb)
    (chroma_add :
       list (entry Emb) → list string → list Emb →
       list (gmap string scalar) → list string →
       result unit * list (entry Emb))
    (pre post : list document) (d : document) (ts : list string)
    (vs : list Emb) (t : string) (e : exn) (w : world Emb) :
  doc_text <$> pre = Some <$> ts →
  Forall2 (λ t v, embeddings_create embedding_model t = Ok v) ts vs →
  doc_text d = Some t →
  embeddings_create embedding_model t = Raise e →
  SimpleRAG.add_documents embedding_model embeddings_create chroma_add
    (pre ++ d :: post) w =
  (Raise e,
   {| collection := collection w;
      trace := trace w ++ (EmbeddingsCreate embedding_model <$> ts)
        ++ [EmbeddingsCreate embedding_model t;
            LogError ("Error creating embedding: " +:+ str_exn e);
            LogError ("Error adding documents: " +:+ str_exn e)] |}).
Proof.
  intros Hts Hvs Hd He.
  assert (∀ i b (w0 : world Emb),
    SimpleRAG.add_documents_loop embedding_model embeddings_create i
      (d :: post) b w0 =
    (Raise e,
     {| collection := collection w0;
        trace := trace w0 ++
          [EmbeddingsCreate embedding_model t;
           LogError ("Error creating embedding: " +:+ str_exn e)] |}))
    as Hstop.
  { intros i b w0. simpl. unfold bind at 1, SimpleRAG.getitem_text.
    rewrite Hd. unfold ret at 1. unfold bind at 1.
    by rewrite (create_embedding_raise embedding_model embeddings_create
                  _ _ _ He). }
  rewrite (add_documents_of_loop_raise embedding_model embeddings_create
             chroma_add _ w _ e
             (add_documents_loop_stops embedding_model embeddings_create
                pre ts vs (d :: post) e _ Hts Hvs Hstop _ _ w)).
  simpl. by rewrite <- !app_assoc.
Qed.

Lemma add_documents_first_failure_witness :
  SimpleRAG.add_documents "text-embedding-3-small" Sample.embeddings_create
    Sample.chroma_add
    ([ {| doc_text := Some "alpha"; doc_metadata := None;
          doc_id := Some "a" |};
       {| doc_text := Some "be"; doc_metadata := None; doc_id := None |} ]
     ++ {| doc_text := Some ""; doc_metadata := None; doc_id := Some "c" |}
     :: [])
    Sample.world_abc =
  (Raise (CollaboratorError "empty input"),
   {| collection := collection Sample.world_abc;
      trace := trace Sample.world_abc
        ++ (EmbeddingsCreate "text-embedding-3-small" <$> ["alpha"; "be"])
        ++ [EmbeddingsCreate "text-embedding-3-small" "";
            LogError "Error creating embedding: empty input";
            LogError "Error adding documents: empty input"] |}).
Proof.
  apply (add_documents_first_failure "text-embedding-3-small"
           Sample.embeddings_create Sample.chroma_add _ _ _ ["alpha"; "be"]
           [5%Z; 2%Z] ""
           (CollaboratorError "empty input")).
  - reflexivity.
  - repeat constructor.
  - reflexivity.
  - reflexivity.
Defined.

(** X11: when [add_documents] returns, the four lists it handed to the
    collection are aligned with the batch: the text at index [i] is the
    ['text'] of document [i], the embedding at index [i] is the embedding of
    that text, and the metadata at index [i] is the document's ['metadata'],
    or the empty dictionary when the document has none. *)
Theorem add_documents_batch_aligned {Emb} (embedding_model : string)
    (embeddings_create : string → string → result Emb)
    (chroma_add :
       list (entry Emb) → list string → list Emb →
       list (gmap string scalar) → list string →
       result unit * list (entry Emb))
    (documents : list document) (w w' : world Emb) :
  SimpleRAG.add_documents embedding_model embeddings_create chroma_add
    documents w = (Ok tt, w') →
  ∃ ts vs ms,
    trace w' =
      trace w ++ (EmbeddingsCreate embedding_model <$> ts)
        ++ [CollectionAdd ts vs ms (imap assigned_id documents);
            LogInfo ("Added " +:+ pretty (length documents)
                       +:+ " documents to the collection")] ∧
    length ts = length documents ∧ length vs = length documents ∧
    length ms = length documents ∧
    ∀ i doc, documents !! i = Some doc →
      ∃ t v,
        doc_text doc = Some t ∧ ts !! i = Some t ∧
        vs !! i = Some v ∧ embeddings_create embedding_model t = Ok v ∧
        ms !! i = Some (default ∅ (doc_metadata doc)).
Proof.
  intros Hadd.
  apply add_documents_ok_inv in Hadd as (b & w1 & Hloop & _ & Htr).
  apply add_documents_loop_rows in Hloop
    as (Hm & Hi & _ & Htr1 & Hlt & Hlv & Hrows).
  rewrite Hm, Hi, Htr1 in Htr.
  exists (SimpleRAG.texts b), (SimpleRAG.embeddings b),
    ((λ d, default ∅ (doc_metadata d)) <$> documents).
  split; [by rewrite Htr, <- app_assoc|].
  split; [done|]. split; [done|]. split; [by rewrite length_fmap|].
  intros i doc Hdoc.
  destruct (Hrows i doc Hdoc) as (t & v & Hdt & Hti & Hvi & Hv).
  exists t, v. repeat split; try done.
  by rewrite list_lookup_fmap, Hdoc.
Qed.

Lemma add_documents_batch_aligned_witness :
  let w' :=
    snd (SimpleRAG.add_documents "text-embedding-3-small"
           Sample.embeddings_create Sample.chroma_add Sample.docs_mixed
           Sample.empty_world) in
  ∃ ts vs ms,
    trace w' =
      trace Sample.empty_world
        ++ (EmbeddingsCreate "text-embedding-3-small" <$> ts)
        ++ [CollectionAdd ts vs ms (imap assigned_id Sample.docs_mixed);
            LogInfo ("Added " +:+ pretty (length Sample.docs_mixed)
                       +:+ " documents to the collection")] ∧
    length ts = length Sample.docs_mixed ∧
    length vs = length Sample.docs_mixed ∧
    length ms = length Sample.docs_mixed ∧
    ∀ i doc, Sample.docs_mixed !! i = Some doc →
      ∃ t v,
        doc_text doc = Some t ∧ ts !! i = Some t ∧
        vs !! i = Some v ∧
        Sample.embeddings_create "text-embedding-3-small" t = Ok v ∧
        ms !! i = Some (default ∅ (doc_metadata doc)).
Proof.
  intros w'.
  apply (add_documents_batch_aligned "text-embedding-3-small"
           Sample.embeddings_create Sample.chroma_add Sample.docs_mixed
           Sample.empty_world w').
  reflexivity.
Defined.

(** X18: when every document of the batch has a text that the embedding
    call accepts, the outcome of [add_documents] is the outcome of the one
    [add] call on the collection: after one embedding call per document, in
    batch order, the collection receives the four lists; when it returns,
    [add_documents] returns and logs the number of documents; when it raises,
    [add_documents] logs that exception and raises it again, and makes no
    further call. *)
Theorem add_documents_store_outcome {Emb} (embedding_model : string)
    (embeddings_create : string → string → result Emb)
    (chroma_add :
       list (entry Emb) → list string → list Emb →
       list (gmap string scalar) → list string →
       result unit * list (entry Emb))
    (documents : list document) (ts : list string) (vs : list Emb)
    (w : world Emb) :
  let ms := (λ d, default ∅ (doc_metadata d)) <$> documents in
  let ids := imap assigned_id documents in
  let outcome := chroma_add (collection w) ts vs ms ids in
  doc_text <$> documents = Some <$> ts →
  Forall2 (λ t v, embeddings_create embedding_model t = Ok v) ts vs →
  SimpleRAG.add_documents embedding_model embeddings_create chroma_add
    documents w =
  (fst outcome,
   {| collection := snd outcome;
      trace := trace w ++ (EmbeddingsCreate embedding_model <$> ts)
        ++ [CollectionAdd ts vs ms ids;
            match fst outcome with
            | Ok _ =>
                LogInfo ("Added " +:+ pretty (length documents)
                           +:+ " documents to the collection")
            | Raise e => LogError ("Error adding documents: " +:+ str_exn e)
            end] |}).
Proof.
  intros ms ids outcome Hts Hvs.
  pose proof (add_documents_loop_complete embedding_model embeddings_create
                documents ts vs 0
                {| SimpleRAG.texts := []; SimpleRAG.embeddings := [];
                   SimpleRAG.metadatas := []; SimpleRAG.ids := [] |}
                w Hts Hvs) as Hloop.
  simpl in Hloop. fold ms ids in Hloop.
  destruct outcome as [[[]|e] es] eqn:Hcall; subst outcome; simpl.
  - rewrite (add_documents_of_loop_ok _ _ _ _ _ _ _ es Hloop Hcall).
    simpl. by rewrite <- app_assoc.
  - rewrite (add_documents_of_add_raise _ _ _ _ _ _ _ e es Hloop Hcall).
    simpl. by rewrite <- app_assoc.
Qed.

Lemma add_documents_store_outcome_witness :
  SimpleRAG.add_documents "text-embedding-3-small" Sample.embeddings_create
    Sample.chroma_add Sample.docs_bare Sample.world_abc =
  (Raise (CollaboratorError "empty metadata"),
   {| collection := collection Sample.world_abc;
      trace := trace Sample.world_abc
        ++ (EmbeddingsCreate "text-embedding-3-small" <$> ["alpha"; "be"])
        ++ [CollectionAdd ["alpha"; "be"] [5%Z; 2%Z] [∅; ∅] ["a"; "doc_1"];
            LogError "Error adding documents: empty metadata"] |}).
Proof.
  apply (add_documents_store_outcome "text-embedding-3-small"
           Sample.embeddings_create Sample.chroma_add Sample.docs_bare
           ["alpha"; "be"] [5%Z; 2%Z] Sample.world_abc).
  - reflexivity.
  - repeat constructor.
Defined.

(** ** [SimpleRAG.query]: the calls it makes *)





(** X13: [query] does not stop when the search finds nothing: with an empty
    list of sources it still makes the chat call, on the prompt whose context
    block is empty, and returns the model's answer with no sources. *)
Theorem query_without_sources {Emb D} (dist : Emb → Emb → D)
    (dleb : D → D → bool) (embedding_model chat_model : string)
    (embeddings_create : string → string → result Emb)
    (chat_completions_create : string → list (string * string) → result string)
    (question : string) (n_results : Z) (w w1 : world Emb) (a : string) :
  let prompt :=
    "Based on the following context, please answer the question."
      +:+ nl +:+ nl +:+ "Context:" +:+ nl +:+ nl +:+ nl
      +:+ "Question: " +:+ question +:+ nl +:+ nl +:+ "Answer:" in
  let messages := [("system", SimpleRAG.system_message); ("user", prompt)] in
  SimpleRAG.search_documents dist dleb embedding_model embeddings_create
    question n_results w = (Ok [], w1) →
  chat_completions_create chat_model messages = Ok a →
  SimpleRAG.query dist dleb embedding_model chat_model embeddings_create
    chat_completions_create question n_results w =
  (Ok {| qr_question := question; qr_answer := a; qr_sources := [] |},
   {| collection := collection w1;
      trace := trace w1 ++ [ChatCompletionsCreate chat_model messages] |}).
Proof.
  intros prompt messages Hs Ha.
  by apply (query_ok dist dleb embedding_model chat_model embeddings_create
              chat_completions_create question n_results [] a w w1 Hs).
Qed.

Lemma query_without_sources_witness :
  ∃ w1 w',
    SimpleRAG.search_documents Sample.dist Z.leb "text-embedding-3-small"
      Sample.embeddings_create Sample.question 2 Sample.empty_world
      = (Ok [], w1) ∧
    SimpleRAG.query Sample.dist Z.leb "text-embedding-3-small" "gpt-4o-mini"
      Sample.embeddings_create Sample.chat_completions_create
      Sample.question 2 Sample.empty_world =
    (Ok {| qr_question := Sample.question; qr_answer := "103";
           qr_sources := [] |}, w') ∧
    count_events is_chat_call (trace w') = 1%nat.
Proof.
  eexists _, _. split; [reflexivity|]. split.
  - apply (query_without_sources Sample.dist Z.leb "text-embedding-3-small"
             "gpt-4o-mini" Sample.embeddings_create
             Sample.chat_completions_create Sample.question 2
             Sample.empty_world).
    + reflexivity.
    + reflexivity.
  - reflexivity.
Defined.

(** ** The context in the prompt *)

Lemma string_app_nil_r (s : string) : s +:+ "" = s.
Proof.
  induction s as [|c s IH]; [done|].
  change (String c (s +:+ "") = String c s). by rewrite IH.
Qed.

Lemma concat_cons_cons (sep x y : string) (l : list string) :
  String.concat sep (x :: y :: l) = x +:+ sep +:+ String.concat sep (y :: l).
Proof. done. Qed.

Lemma concat_contains (sep : string) (pre post : list string) (t : string) :
  ∃ a b, String.concat sep (pre ++ t :: post) = a +:+ t +:+ b.
Proof.
  induction pre as [|x [|y pre] IH].
  - exists "". destruct post as [|p post].
    + exists "". change (t = t +:+ ""). by rewrite string_app_nil_r.
    + by exists (sep +:+ String.concat sep (p :: post)).
  - destruct IH as (a & b & IH).
    exists (x +:+ sep +:+ a), b.
    change ([x] ++ t :: post) with (x :: t :: post).
    rewrite concat_cons_cons.
    change (t :: post) with ([] ++ t :: post).
    rewrite IH. by rewrite (string_app_assoc x), (string_app_assoc sep).
  - destruct IH as (a & b & IH).
    exists (x +:+ sep +:+ a), b.
    change ((x :: y :: pre) ++ t :: post) with (x :: y :: (pre ++ t :: post)).
    rewrite concat_cons_cons.
    change (y :: (pre ++ t :: post)) with ((y :: pre) ++ t :: post).
    rewrite IH. by rewrite (string_app_assoc x), (string_app_assoc sep).
Qed.

Lemma prompt_of_around (query context : string) :
  ∃ P M S, prompt_of query context = P +:+ context +:+ M +:+ query +:+ S.
Proof.
  unfold prompt_of.
  generalize "Based on the following context, please answer the question.".
  generalize "Context:". generalize "Question: ". generalize "Answer:".
  generalize nl. intros n s4 s3 s2 s1.
  exists (s1 +:+ n +:+ n +:+ s2 +:+ n), (n +:+ n +:+ s3), (n +:+ n +:+ s4).
  by rewrite !string_app_assoc.
Qed.

(** X14: the prompt of [generate_response] holds the question and the text
    of every context document in full, whatever their lengths: nothing is
    cut or left out. *)
Theorem prompt_holds_every_text {D} (query : string)
    (context_docs : list (search_result D)) :
  (∃ a b, prompt_of query (context_of context_docs) = a +:+ query +:+ b) ∧
  ∀ d, d ∈ context_docs →
    ∃ a b, prompt_of query (context_of context_docs) = a +:+ sr_text d +:+ b.
Proof.
  destruct (prompt_of_around query (context_of context_docs))
    as (P & M & S & ->).
  split.
  - exists (P +:+ context_of context_docs +:+ M), S.
    by rewrite !string_app_assoc.
  - intros d (pre & post & ->)%list_elem_of_split.
    unfold context_of. rewrite fmap_app, fmap_cons.
    destruct (concat_contains (nl +:+ nl) (sr_text <$> pre)
                (sr_text <$> post) (sr_text d)) as (a & b & ->).
    exists (P +:+ a), (b +:+ M +:+ query +:+ S).
    by rewrite !string_app_assoc.
Qed.

(** X15: [search_documents] and [query] only read the collection: whatever
    the outcome of the embedding call and of the chat call, the collection
    afterwards is the collection before, and no [add] call on the collection
    is among the calls made. *)
Theorem query_never_writes {Emb D} (dist : Emb → Emb → D)
    (dleb : D → D → bool) (embedding_model chat_model : string)
    (embeddings_create : string → string → result Emb)
    (chat_completions_create : string → list (string * string) → result string)
    (question : string) (n_results : Z) (w : world Emb) :
  let searched :=
    SimpleRAG.search_documents dist dleb embedding_model embeddings_create
      question n_results w in
  let queried :=
    SimpleRAG.query dist dleb embedding_model chat_model embeddings_create
      chat_completions_create question n_results w in
  (collection (snd searched) = collection w ∧
   ∃ evs, trace (snd searched) = trace w ++ evs ∧
          count_events is_collection_add evs = 0%nat) ∧
  (collection (snd queried) = collection w ∧
   ∃ evs, trace (snd queried) = trace w ++ evs ∧
          count_events is_collection_add evs = 0%nat).
Proof.
  intros searched queried. subst searched queried.
  destruct (embeddings_create embedding_model question) as [v|e] eqn:Hv;
    [destruct (decide (0 < n_results)%Z) as [Hk|Hk]|].
  - pose proof (search_documents_ok dist dleb embedding_model
                  embeddings_create question n_results v w Hk Hv) as Hs.
    split.
    { rewrite Hs. simpl. split; [done|]. by eexists. }
    destruct (chat_completions_create chat_model
                (SimpleRAG.messages_of
                   (prompt_of question
                      (context_of
                         (result_of_hit <$>
                            Collection.nearest dist dleb (collection w)
                              n_results v))))) as [a|e] eqn:Ha.
    + rewrite (query_ok dist dleb embedding_model chat_model
                 embeddings_create chat_completions_create question n_results
                 _ a w _ Hs Ha). simpl.
      split; [done|]. rewrite <- app_assoc. by eexists.
    + rewrite (query_generate_raise dist dleb embedding_model chat_model
                 embeddings_create chat_completions_create question n_results
                 _ e w _ Hs Ha). simpl.
      split; [done|]. rewrite <- app_assoc. by eexists.
  - assert (n_results ≤ 0)%Z as Hk' by lia.
    pose proof (search_documents_query_raise dist dleb embedding_model
                  embeddings_create question n_results v w Hk' Hv) as Hs.
    split.
    { rewrite Hs. simpl. split; [done|]. by eexists. }
    rewrite (query_search_raise dist dleb embedding_model chat_model
               embeddings_create chat_completions_create question n_results
               _ w _ Hs). simpl.
    split; [done|]. rewrite <- app_assoc. by eexists.
  - pose proof (search_documents_raise dist dleb embedding_model
                  embeddings_create question n_results e w Hv) as Hs.
    split.
    { rewrite Hs. simpl. split; [done|]. by eexists. }
    rewrite (query_search_raise dist dleb embedding_model chat_model
               embeddings_create chat_completions_create question n_results
               e w _ Hs). simpl.
    split; [done|]. rewrite <- app_assoc. by eexists.
Qed.

(** ** [SimpleRAG.get_collection_info] *)

(** X16: [get_collection_info] never raises. When the collection's count
    is read it returns the collection name ["rag_documents"] and the count
    under ['document_count'] and logs nothing; when reading the count raises
    it logs one line and returns a dictionary whose only key is ['error'],
    so that dictionary has no ['document_count']. *)
Theorem get_collection_info_never_raises {Emb}
    (collection_count : M Emb Z) (w : world Emb) :
  match collection_count w with
  | (Ok count, w') =>
      SimpleRAG_info.get_collection_info collection_count w =
        (Ok (<["document_count" := SInt count]>
               {["collection_name" := SStr "rag_documents"]}), w')
  | (Raise e, w') =>
      ∃ info : gmap string scalar,
        SimpleRAG_info.get_collection_info collection_count w =
          (Ok info,
           {| collection := collection w';
              trace := trace w'
                ++ [LogError ("Error getting collection info: "
                                +:+ str_exn e)] |}) ∧
        info !! "error" = Some (SStr (str_exn e)) ∧
        info !! "document_count" = None ∧
        dom info = {["error"]}
  end.
Proof.
  unfold SimpleRAG_info.get_collection_info.
  destruct (collection_count w) as [[count|e] w']; [done|].
  eexists. split; [done|].
  split; [apply lookup_singleton_eq|].
  split; [by apply lookup_singleton_ne|]. apply dom_singleton_L.
Qed.

(** ** The formatting loop of [search_documents] *)

Section format_loop_rows.
Context {Emb D : Type}.
Variable results : query_response D.
Variables (dr : list string) (mr : list (gmap string scalar))
  (sr : list D) (ir : list string).
Hypothesis documents_row : r_documents results !! 0%nat = Some dr.
Hypothesis metadatas_row : r_metadatas results !! 0%nat = Some mr.
Hypothesis distances_row : r_distances results !! 0%nat = Some sr.
Hypothesis ids_row : r_ids results !! 0%nat = Some ir.

Lemma format_loop_step (i : nat) (rest : list nat)
    (acc : list (search_result D)) (w : world Emb) :
  SimpleRAG.format_loop results (i :: rest) acc w =
    match dr !! i, mr !! i, sr !! i, ir !! i with
    | Some t, Some m, Some d, Some x =>
        SimpleRAG.format_loop results rest
          (acc ++ [{| sr_text := t; sr_metadata := m; sr_distance := d;
                      sr_id := x |}]) w
    | _, _, _, _ => (Raise IndexError, w)
    end.
Proof.
  simpl. unfold SimpleRAG.getitem2, getitem, bind, ret, raise.
  rewrite documents_row, metadatas_row, distances_row, ids_row.
  destruct (dr !! i); [|done]. destruct (mr !! i); [|done].
  destruct (sr !! i); [|done]. by destruct (ir !! i).
Qed.

Lemma format_loop_complete (n : nat) : ∀ k acc (w : world Emb),
  (k + n ≤ length dr)%nat → (k + n ≤ length mr)%nat →
  (k + n ≤ length sr)%nat → (k + n ≤ length ir)%nat →
  ∃ rs,
    SimpleRAG.format_loop results (seq k n) acc w = (Ok (acc ++ rs), w) ∧
    length rs = n ∧
    ∀ j r, rs !! j = Some r →
      dr !! (k + j)%nat = Some (sr_text r) ∧
      mr !! (k + j)%nat = Some (sr_metadata r) ∧
      sr !! (k + j)%nat = Some (sr_distance r) ∧
      ir !! (k + j)%nat = Some (sr_id r).
Proof.
  induction n as [|n IH]; intros k acc w Hd Hm Hs Hi.
  - exists []. rewrite app_nil_r. by repeat split.
  - change (seq k (S n)) with (k :: seq (S k) n). rewrite format_loop_step.
    destruct (lookup_lt_is_Some_2 dr k) as [t Ht]; [lia|].
    destruct (lookup_lt_is_Some_2 mr k) as [m Hmk]; [lia|].
    destruct (lookup_lt_is_Some_2 sr k) as [d Hdk]; [lia|].
    destruct (lookup_lt_is_Some_2 ir k) as [x Hx]; [lia|].
    rewrite Ht, Hmk, Hdk, Hx.
    destruct (IH (S k) (acc ++ [{| sr_text := t; sr_metadata := m;
                                   sr_distance := d; sr_id := x |}]) w)
      as (rs & Hloop & Hlen & Hrs); [lia..|].
    eexists (_ :: rs). rewrite Hloop, <- app_assoc.
    split; [done|]. split; [simpl; by rewrite Hlen|].
    intros [|j] r Hr.
    + injection Hr as <-. by rewrite Nat.add_0_r.
    + replace (k + S j)%nat with (S k + j)%nat by lia. by apply Hrs.
Qed.

Lemma format_loop_short (n : nat) : ∀ k acc (w : world Emb) i,
  (k ≤ i < k + n)%nat →
  mr !! i = None ∨ sr !! i = None ∨ ir !! i = None →
  SimpleRAG.format_loop results (seq k n) acc w = (Raise IndexError, w).
Proof.
  induction n as [|n IH]; intros k acc w i Hi Hshort; [lia|].
  change (seq k (S n)) with (k :: seq (S k) n). rewrite format_loop_step.
  destruct (dr !! k) as [t|]; [|done]. destruct (mr !! k) as [m|] eqn:Hm;
    [|done]. destruct (sr !! k) as [d|] eqn:Hd; [|done].
  destruct (ir !! k) as [x|] eqn:Hx; [|done].
  apply (IH (S k) _ w i); [|done].
  destruct (decide (i = k)) as [->|]; [|lia].
  destruct Hshort as [?|[?|?]]; congruence.
Qed.
End format_loop_rows.

(** X17: the formatting loop of [search_documents] builds one result for
    each text of the first ['documents'] row, from the entries at the same
    index of the first ['metadatas'], ['distances'] and ['ids'] rows, and
    ignores what those rows hold beyond; when one of those rows is shorter
    than the ['documents'] row the loop raises [IndexError] and no result is
    returned. *)
Theorem format_loop_rows_aligned {Emb D} (results : query_response D)
    (dr : list string) (mr : list (gmap string scalar)) (sr : list D)
    (ir : list string) (w : world Emb) :
  r_documents results !! 0%nat = Some dr →
  r_metadatas results !! 0%nat = Some mr →
  r_distances results !! 0%nat = Some sr →
  r_ids results !! 0%nat = Some ir →
  let out :=
    SimpleRAG.format_loop results (seq 0 (length dr)) [] w in
  ((length dr ≤ length mr)%nat ∧ (length dr ≤ length sr)%nat ∧
   (length dr ≤ length ir)%nat →
   ∃ rs,
     out = (Ok rs, w) ∧ length rs = length dr ∧
     ∀ j r, rs !! j = Some r →
       dr !! j = Some (sr_text r) ∧ mr !! j = Some (sr_metadata r) ∧
       sr !! j = Some (sr_distance r) ∧ ir !! j = Some (sr_id r)) ∧
  ((length mr < length dr)%nat ∨ (length sr < length dr)%nat ∨
   (length ir < length dr)%nat →
   out = (Raise IndexError, w)).
Proof.
  intros Hd Hm Hs Hi out. subst out. split.
  - intros (Hlm & Hls & Hli).
    destruct (format_loop_complete results dr mr sr ir Hd Hm Hs Hi
                (length dr) 0%nat [] w) as (rs & Hloop & Hlen & Hrs);
      [simpl; lia..|].
    exists rs. split; [done|]. split; [done|]. exact Hrs.
  - intros Hshort.
    assert (∃ i, (i < length dr)%nat ∧
                 (mr !! i = None ∨ sr !! i = None ∨ ir !! i = None))
      as (i & Hlt & Hnone).
    { destruct Hshort as [H|[H|H]].
      - exists (length mr). split; [done|]. left. by apply lookup_ge_None.
      - exists (length sr). split; [done|]. right. left.
        by apply lookup_ge_None.
      - exists (length ir). split; [done|]. right. right.
        by apply lookup_ge_None. }
    apply (format_loop_short results dr mr sr ir Hd Hm Hs Hi
             (length dr) 0%nat [] w i); [lia|done].
Qed.

Lemma format_loop_rows_aligned_witness :
  SimpleRAG.format_loop
    {| r_documents := [["alpha"; "be"]]; r_metadatas := [[∅; ∅]];
       r_distances := [[1%Z]]; r_ids := [["a"; "b"; "c"]] |}
    (seq 0 2) [] Sample.empty_world
  = (Raise IndexError, Sample.empty_world).
Proof.
  apply (format_loop_rows_aligned
           {| r_documents := [["alpha"; "be"]]; r_metadatas := [[∅; ∅]];
              r_distances := [[1%Z]]; r_ids := [["a"; "b"; "c"]] |}
           ["alpha"; "be"] [∅; ∅] [1%Z] ["a"; "b"; "c"] Sample.empty_world).
  - reflexivity.
  - reflexivity.
  - reflexivity.
  - reflexivity.
  - right. left. simpl. lia.
Defined.

(** ** Instances of the further properties *)

Lemma chunk_text_id_determines_source_witness :
  str_scalar (default (SStr "doc")
                (default ∅ (Some ({["source" := SStr "notes"]}
                                    : gmap string scalar)) !! "source"))
    = str_scalar (default (SStr "doc")
                    (default ∅ (Some ({["source" := SStr "notes"]}
                                        : gmap string scalar)) !! "source")) ∧
  1%nat = 1%nat.
Proof.
  apply (chunk_text_id_determines_source Sample.split_text
           (DocProcessor.Build_t 4%nat) (DocProcessor.Build_t 3%nat)
           "retrieval" "augmented"
           (Some {["source" := SStr "notes"]})
           (Some {["source" := SStr "notes"]}) 1 1
           (chunk_document {["source" := SStr "notes"]} 3 1 "ieva")
           (chunk_document {["source" := SStr "notes"]} 3 1 "men")).
  - reflexivity.
  - reflexivity.
  - reflexivity.
Defined.

Lemma load_sample_documents_ids_distinct_witness :
  let docs :=
    match DocProcessor_load_sample_documents nat Sample_io.make_splitter
            Sample.split_text with
    | Ok docs => docs
    | Raise _ => []
    end in
  length docs = 6%nat ∧
  NoDup (doc_id <$> docs) ∧
  ∀ d, d ∈ docs →
    ∃ source (i : nat),
      source ∈ ["ai_overview"; "python_overview"; "vector_db_overview"] ∧
      doc_id d = Some (source +:+ "_" +:+ pretty i).
Proof.
  intros docs. split; [vm_compute; reflexivity|].
  apply (load_sample_documents_ids_distinct Sample_io.make_splitter
           Sample.split_text docs).
  left. vm_compute. reflexivity.
Defined.

Lemma process_file_documents_witness :
  ∃ docs,
    DocProcessor_io.process_file nat Sample.split_text Sample_io.open_read
      (DocProcessor.Build_t 4%nat) "notes.txt" None = Ok docs ∧
    DocumentProcessor_io.process_file nat Sample.split_text
      Sample_io.open_read (DocumentProcessor.Build_t 4%nat) "notes.txt" None
      = (Ok docs, []) ∧
    doc_text <$> docs = Some <$> Sample.split_text 4 "retrieval" ∧
    ∀ i d, docs !! i = Some d →
      doc_id d = Some ("notes.txt" +:+ "_" +:+ pretty i) ∧
      ∃ m : gmap string scalar,
        doc_metadata d = Some m ∧
        m !! "source" = Some (SStr "notes.txt") ∧
        m !! "type" = Some (SStr "file") ∧
        m !! "file_path" = Some (SStr "notes.txt").
Proof.
  exact (process_file_documents Sample.split_text Sample_io.open_read 4%nat
           "notes.txt" None).
Defined.

Lemma prompt_holds_every_text_witness :
  ∃ a b,
    prompt_of Sample.question (context_of Sample.hits)
      = a +:+ "alpha" +:+ b.
Proof.
  apply (proj2 (prompt_holds_every_text Sample.question Sample.hits)
           {| sr_text := "alpha"; sr_metadata := Sample.notes;
              sr_distance := 7%Z; sr_id := "a" |}).
  unfold Sample.hits. apply list_elem_of_further, list_elem_of_here.
Defined.
